(** * Stream resolution of the scraper add-on (api/index.js)

    A shallow embedding of the stream handler and of its two source
    resolvers, [scrapeCuevanaStream] and [scrapeFailoverStream], together
    with the properties of the resolution pipeline: failover order,
    quality tiers, caching policy and error containment.

    JavaScript strings are modelled as [string]: sequences of one-byte
    code units.  The asynchronous functions run one after the other
    ([await] at every call), so they are embedded as sequential programs of
    a state-and-exception monad over an explicit world (cache store, clock
    and the log of the effects performed).  What lies outside the program
    (the network, the availability of the cache store, the HTML parser,
    the URL constructor and the JSON codec) is a parameter of the
    embedding; response bodies are texts. *)

From Stdlib Require Import String Ascii List Arith Lia Bool.
From stdpp Require Import base strings gmap.
Import ListNotations.

#[local] Arguments String.append : simpl nomatch.

(* ================================================================= *)
(** ** Regular expressions

    The two patterns of the program use literals, quantified character
    classes and capture groups that do not nest.  The matcher follows the
    continuation semantics of the language definition: a quantifier tries
    its candidates in priority order (longest first when greedy, shortest
    first when lazy) and the rest of the pattern is the continuation. *)

Inductive atom : Type :=
| Chr (c : ascii)
| Rep (cls : ascii -> bool) (min : nat) (max : option nat) (greedy : bool)
| Open
| Close.

(** Open groups remember where they started; closed groups are recorded in
    closing order, which is the numbering order when groups do not nest. *)
Record mstate : Type := MState { opened : list string; captured : list string }.

Definition mstate0 : mstate := MState [] [].

(** The text consumed between [start] and its suffix [s]. *)
Definition consumed (start s : string) : string :=
  substring 0 (String.length start - String.length s) start.

Definition max_pred (max : option nat) : option nat :=
  match max with Some n => Some (pred n) | None => None end.

Fixpoint rep_greedy {R : Type} (cls : ascii -> bool) (k : string -> option R)
    (min : nat) (max : option nat) (s : string) : option R :=
  let stop := match min with 0 => k s | S _ => None end in
  match max, s with
  | Some 0, _ => stop
  | _, String c s' =>
      if cls c then
        match rep_greedy cls k (pred min) (max_pred max) s' with
        | Some r => Some r
        | None => stop
        end
      else stop
  | _, EmptyString => stop
  end.

Fixpoint rep_lazy {R : Type} (cls : ascii -> bool) (k : string -> option R)
    (min : nat) (max : option nat) (s : string) : option R :=
  let more :=
    match max, s with
    | Some 0, _ => None
    | _, String c s' =>
        if cls c then rep_lazy cls k (pred min) (max_pred max) s' else None
    | _, EmptyString => None
    end in
  match min with
  | 0 => match k s with Some r => Some r | None => more end
  | S _ => more
  end.

(** Match the pattern [p] at the start of [s]; the result is the final
    state and the text left after the match. *)
Fixpoint run (p : list atom) (st : mstate) (s : string) {struct p}
    : option (mstate * string) :=
  match p with
  | [] => Some (st, s)
  | Chr c :: p' =>
      match s with
      | String c' s' => if Ascii.eqb c c' then run p' st s' else None
      | EmptyString => None
      end
  | Rep cls mn mx g :: p' =>
      (if g then rep_greedy else rep_lazy) cls (run p' st) mn mx s
  | Open :: p' => run p' (MState (s :: opened st) (captured st)) s
  | Close :: p' =>
      match opened st with
      | start :: o =>
          run p' (MState o (captured st ++ [consumed start s])) s
      | [] => None
      end
  end.

(** [str.match(re)] for a pattern without the global flag: the leftmost
    position where the pattern matches; the result lists groups 1, 2, ... *)
Fixpoint String_match (p : list atom) (s : string) : option (list string) :=
  match run p mstate0 s with
  | Some (st, _) => Some (captured st)
  | None =>
      match s with
      | String _ s' => String_match p s'
      | EmptyString => None
      end
  end.

(** The successive results of [re.exec(str)] for a pattern with the global
    flag, until it answers [null]: each search starts where the previous
    match ended ([lastIndex]).  [skip] counts the characters of the current
    match still to be passed.  The pattern this is used with matches no
    empty text (lemma [variant_re_progress]), so every search starts
    strictly after the start of the previous match, as here. *)
Fixpoint exec_all (p : list atom) (s : string) (skip : nat) : list (list string) :=
  match skip with
  | S k =>
      match s with
      | String _ s' => exec_all p s' k
      | EmptyString => []
      end
  | 0 =>
      match run p mstate0 s with
      | Some (st, rest) =>
          captured st ::
          match s with
          | String _ s' => exec_all p s' (pred (String.length s - String.length rest))
          | EmptyString => []
          end
      | None =>
          match s with
          | String _ s' => exec_all p s' 0
          | EmptyString => []
          end
      end
  end.

(** [m[i]] for [i >= 1].  Every group of the two patterns takes part in
    every match, so the default is never read. *)
Definition group (i : nat) (m : list string) : string := nth (pred i) m "".

Fixpoint lits (s : string) : list atom :=
  match s with
  | String c s' => Chr c :: lits s'
  | EmptyString => []
  end.

Definition nl : string := String "010"%char "".

(** Character classes. *)
Definition cls_dot (c : ascii) : bool :=
  negb (Ascii.eqb c "010"%char || Ascii.eqb c "013"%char).
Definition cls_digit (c : ascii) : bool :=
  (48 <=? nat_of_ascii c) && (nat_of_ascii c <=? 57).
Definition cls_not_quote (c : ascii) : bool :=
  negb (Ascii.eqb c "034"%char || Ascii.eqb c "039"%char).
Definition cls_is (x : ascii) (c : ascii) : bool := Ascii.eqb x c.

Definition star (cls : ascii -> bool) : atom := Rep cls 0 None true.
Definition plus (cls : ascii -> bool) : atom := Rep cls 1 None true.
Definition star_lazy (cls : ascii -> bool) : atom := Rep cls 0 None false.
Definition opt (cls : ascii -> bool) : atom := Rep cls 0 (Some 1) true.

(** The master pattern of lines 119 and 177, one group around all of it:
    http, an optional s, a colon and two slashes, one or more characters
    that are no quote, the extension .m3u8, then any number of characters
    that are no quote (a quote is the double or the single quote). *)
Definition master_re : list atom :=
  [Open] ++ lits "http" ++ [opt (cls_is "s")] ++ lits "://" ++
  [plus cls_not_quote] ++ lits ".m3u8" ++ [star cls_not_quote] ++ [Close].

(** The variant pattern of line 127, with the global flag:
    #EXT-X-STREAM-INF: then any characters of the line (greedy), then
    RESOLUTION= digits x (digits), any characters of the line (lazy), a
    line feed, and (any characters of the line, lazy, then .m3u8). *)
Definition variant_re : list atom :=
  lits "#EXT-X-STREAM-INF:" ++ [star cls_dot] ++ lits "RESOLUTION=" ++
  [plus cls_digit] ++ lits "x" ++ [Open; plus cls_digit; Close] ++
  [star_lazy cls_dot] ++ lits nl ++
  [Open; star_lazy cls_dot] ++ lits ".m3u8" ++ [Close].

(* ================================================================= *)
(** ** Documents and the element query

    [cheerio.load] turns a page into a tree of nodes; [$('iframe')] is the
    list of its iframe elements in document order and [.attr('src')] reads
    the attribute of the first element of a selection ([undefined], here
    [None], when the selection is empty or the attribute is absent). *)

#[local] Unset Elimination Schemes.
Inductive Node : Type :=
| Element (tag : string) (attrs : list (string * string)) (children : list Node)
| TextNode (text : string).
#[local] Set Elimination Schemes.

Fixpoint select_node (tag : string) (n : Node) : list Node :=
  match n with
  | Element t _ cs =>
      (if String.eqb t tag then [n] else []) ++ flat_map (select_node tag) cs
  | TextNode _ => []
  end.

Definition cheerio_select (tag : string) (doc : list Node) : list Node :=
  flat_map (select_node tag) doc.

Fixpoint attr_lookup (name : string) (attrs : list (string * string)) : option string :=
  match attrs with
  | (k, v) :: rest => if String.eqb k name then Some v else attr_lookup name rest
  | [] => None
  end.

Definition cheerio_attr (name : string) (sel : list Node) : option string :=
  match sel with
  | Element _ attrs _ :: _ => attr_lookup name attrs
  | _ => None
  end.

(** Truthiness of a value that is a string or [undefined]/[null]. *)
Definition truthy (v : option string) : bool :=
  match v with
  | Some s => negb (String.eqb s "")
  | None => false
  end.

(** The string held by a truthy value. *)
Definition text_of (v : option string) : string :=
  match v with
  | Some s => s
  | None => ""
  end.

(* ================================================================= *)
(** ** Values, completions and the world *)

(** The objects pushed to [streams]: title, url and name. *)
Record Stream : Type := MkStream { title : string; url : string; name : string }.

Record JsError : Type := MkError { message : string }.

(** A call completes normally with a value or throws (a rejected promise
    becomes a throw at its [await]). *)
Inductive Outcome (A : Type) : Type :=
| Normal (a : A)
| Throw (e : JsError).
Arguments Normal {A} a.
Arguments Throw {A} e.

(** The effects the program performs, in the order it performs them. *)
Inductive Event : Type :=
| EFetch (target : string)
| EGet (key : string)
| ESet (key value : string) (ttl : N)
| EWarn (msg : string)
| EError (msg : string).

(** The cache store keeps each value with its expiry time; times and
    durations are in seconds. *)
Record World : Type := MkWorld {
  store : gmap string (string * N);
  now : N;
  log : list Event
}.

Definition step (w : World) : nat := length (log w).

Definition emit (ev : Event) (w : World) : World :=
  MkWorld (store w) (now w) (log w ++ [ev]).

(** Time passing between two requests. *)
Definition elapse (d : N) (w : World) : World :=
  MkWorld (store w) (now w + d)%N (log w).

(** What [GET key] answers: the value of an entry that has not expired. *)
Definition live (w : World) (key : string) : option string :=
  match store w !! key with
  | Some (v, expiry) => if (now w <? expiry)%N then Some v else None
  | None => None
  end.

(** Everything outside the program.  The answers of the network and the
    availability of the cache store depend on the moment of the call,
    given by the number of effects performed so far.
    - [http t target]: the body [axios.get(target)] resolves with, or the
      error it rejects with;
    - [redis_fault t]: the error a cache command issued at [t] rejects
      with, if any;
    - [cheerio_load]: the document built from a page;
    - [URL_href ref base]: [new URL(ref, base).href], or the [TypeError]
      thrown for a reference that does not parse;
    - [JSON_stringify], [JSON_parse]: the codec, read at the type of the
      lists the program stores. *)
Record Env : Type := MkEnv {
  http : nat -> string -> Outcome string;
  redis_fault : nat -> option JsError;
  cheerio_load : string -> list Node;
  URL_href : string -> string -> Outcome string;
  JSON_stringify : list Stream -> string;
  JSON_parse : string -> Outcome (list Stream)
}.

(* ================================================================= *)
(** ** The monad of function bodies

    A body reads and writes the world and its own [streams] variable, and
    may throw.  The variable survives a throw: the [catch] block and the
    [return] after it see what had been pushed or assigned. *)

Definition M (A : Type) : Type :=
  list Stream -> World -> Outcome A * list Stream * World.

Definition ret {A : Type} (a : A) : M A := fun fr w => (Normal a, fr, w).

Definition bind {A B : Type} (m : M A) (k : A -> M B) : M B :=
  fun fr w =>
    match m fr w with
    | (Normal a, fr', w') => k a fr' w'
    | (Throw e, fr', w') => (Throw e, fr', w')
    end.

Definition throw {A : Type} (e : JsError) : M A := fun fr w => (Throw e, fr, w).

Definition try_catch (body : M unit) (handler : JsError -> M unit) : M unit :=
  fun fr w =>
    match body fr w with
    | (Normal a, fr', w') => (Normal a, fr', w')
    | (Throw e, fr', w') => handler e fr' w'
    end.

(** A computation without effects that may throw. *)
Definition lift {A : Type} (o : Outcome A) : M A := fun fr w => (o, fr, w).

Definition get_streams : M (list Stream) := fun fr w => (Normal fr, fr, w).
Definition set_streams (l : list Stream) : M unit := fun _ w => (Normal tt, l, w).
Definition push_stream (x : Stream) : M unit := fun fr w => (Normal tt, fr ++ [x], w).

(** An [async function]: its body runs on a variable of its own. *)
Definition Fn (A : Type) : Type := World -> Outcome A * World.

Definition function {A : Type} (body : M A) : Fn A :=
  fun w => let '(o, _, w') := body [] w in (o, w').

Definition call {A : Type} (f : Fn A) : M A :=
  fun fr w => let '(o, w') := f w in (o, fr, w').

Notation "'let*' x ':=' m 'in' k" := (bind m (fun x => k))
  (at level 10, x name, m at level 100, k at level 200).
Notation "m '>>' k" := (bind m (fun _ => k))
  (at level 100, k at level 200, right associativity).

Fixpoint forEach {A : Type} (f : A -> M unit) (l : list A) : M unit :=
  match l with
  | [] => ret tt
  | x :: rest => f x >> forEach f rest
  end.

(** A loop without effects whose body may throw: the elements are visited
    in order and the first throw ends the loop (lines 131-135, one round
    per match). *)
Fixpoint map_outcome {A B : Type} (f : A -> Outcome B) (l : list A) : Outcome (list B) :=
  match l with
  | [] => Normal []
  | x :: rest =>
      match f x with
      | Normal y =>
          match map_outcome f rest with
          | Normal ys => Normal (y :: ys)
          | Throw e => Throw e
          end
      | Throw e => Throw e
      end
  end.

Section Program.

Variable env : Env.

(** *** Effects *)

Definition axios_get (target : string) : M string :=
  fun fr w => (http env (step w) target, fr, emit (EFetch target) w).

Definition redis_get (key : string) : M (option string) :=
  fun fr w =>
    match redis_fault env (step w) with
    | Some e => (Throw e, fr, emit (EGet key) w)
    | None => (Normal (live w key), fr, emit (EGet key) w)
    end.

(** [redis.set(key, value, 'EX', ttl)]; a command that fails leaves the
    store as it was. *)
Definition redis_set (key value : string) (ttl : N) : M unit :=
  fun fr w =>
    match redis_fault env (step w) with
    | Some e => (Throw e, fr, emit (ESet key value ttl) w)
    | None =>
        (Normal tt, fr,
         MkWorld (<[key := (value, (now w + ttl)%N)]> (store w)) (now w)
                 (log w ++ [ESet key value ttl]))
    end.

Definition console_warn (msg : string) : M unit :=
  fun fr w => (Normal tt, fr, emit (EWarn msg) w).

Definition console_error (msg : string) : M unit :=
  fun fr w => (Normal tt, fr, emit (EError msg) w).

(** *** scrapeCuevanaStream (lines 106-161) *)

(** Lines 131-135: one [qualities] entry per match, [quality] and [link]. *)
Definition quality_of (masterUrl : string) (m : list string) : Outcome (string * string) :=
  match URL_href env (group 2 m) masterUrl with
  | Normal link => Normal (group 1 m, link)
  | Throw e => Throw e
  end.

(** The [try] block, lines 109-155. *)
Definition scrapeCuevanaStream_try (id : string) : M unit :=
  let pageUrl := "https://cuevana3.me/" +:+ id in
  let* res := axios_get pageUrl in
  let dom := cheerio_load env res in
  let iframeUrl := cheerio_attr "src" (cheerio_select "iframe" dom) in
  if negb (truthy iframeUrl) then throw (MkError "Iframe not found")
  else
    let* iframeHtml := axios_get (text_of iframeUrl) in
    let m3u8MasterMatch := String_match master_re iframeHtml in
    match m3u8MasterMatch with
    | Some m =>
        if truthy (Some (group 1 m)) then
          let masterUrl := group 1 m in
          let* playlist := axios_get masterUrl in
          let* qualities :=
            lift (map_outcome (quality_of masterUrl)
                              (exec_all variant_re playlist 0)) in
          match qualities with
          | _ :: _ =>
              forEach (fun q =>
                push_stream (MkStream (fst q +:+ "p") (snd q) "Cuevana Stream"))
                qualities
          | [] =>
              push_stream (MkStream "Auto (Master)" masterUrl "Cuevana Stream")
          end
        else throw (MkError "No .m3u8 master link found")
    | None => throw (MkError "No .m3u8 master link found")
    end.

Definition scrapeCuevanaStream (id : string) : Fn (list Stream) :=
  function (
    set_streams [] >>
    try_catch (scrapeCuevanaStream_try id)
      (fun err => console_warn ("Primary scrape error: " +:+ message err)) >>
    get_streams).

(** *** scrapeFailoverStream (lines 164-193) *)

(** The [try] block, lines 167-187. *)
Definition scrapeFailoverStream_try (id : string) : M unit :=
  let pageUrl := "https://pelisplushd.net/ver/" +:+ id in
  let* res := axios_get pageUrl in
  let dom := cheerio_load env res in
  let iframeUrl := cheerio_attr "src" (cheerio_select "iframe" dom) in
  if negb (truthy iframeUrl) then throw (MkError "Iframe not found")
  else
    let* iframeHtml := axios_get (text_of iframeUrl) in
    let m3u8Match := String_match master_re iframeHtml in
    match m3u8Match with
    | Some m =>
        if truthy (Some (group 1 m)) then
          push_stream (MkStream "Auto (Failover)" (group 1 m) "Failover Stream")
        else throw (MkError "No .m3u8 link found in failover")
    | None => throw (MkError "No .m3u8 link found in failover")
    end.

Definition scrapeFailoverStream (id : string) : Fn (list Stream) :=
  function (
    set_streams [] >>
    try_catch (scrapeFailoverStream_try id)
      (fun err => console_warn ("Failover scrape error: " +:+ message err)) >>
    get_streams).

(** *** The stream handler (lines 78-103) *)

(** The [try] block, lines 86-96. *)
Definition streamHandler_try (id cacheKey : string) : M unit :=
  let* r := call (scrapeCuevanaStream id) in
  set_streams r >>
  let* streams := get_streams in
  (match streams with
   | [] =>
       console_warn ("Primary site failed, trying failover for " +:+ id) >>
       let* r' := call (scrapeFailoverStream id) in
       set_streams r'
   | _ :: _ => ret tt
   end) >>
  let* streams := get_streams in
  match streams with
  | _ :: _ => redis_set cacheKey (JSON_stringify env streams) (6 * 3600)%N
  | [] => ret tt
  end.

(** Lines 83-102: what the handler does when the cache has no value. *)
Definition streamHandler_resolve (id cacheKey : string) : M (list Stream) :=
  set_streams [] >>
  try_catch (streamHandler_try id cacheKey)
    (fun err => console_error ("Stream scrape failed: " +:+ message err)) >>
  get_streams.

Definition streamHandler (id : string) : Fn (list Stream) :=
  function (
    let cacheKey := "stream:" +:+ id in
    let* cached := redis_get cacheKey in
    if truthy cached then lift (JSON_parse env (text_of cached))
    else streamHandler_resolve id cacheKey).

End Program.

(* ================================================================= *)
(** ** A codec for stored lists

    The text [JSON.stringify] writes for an array of objects with the
    three string members title, url and name, and a reader of such texts,
    which throws on any other text.  The codec instantiates the
    environment of the examples; the properties hold for every codec that
    reads back what it writes. *)

Module Json.

Definition dq : ascii := "034"%char.
Definition bs : ascii := "092"%char.

Definition hex_digit (n : nat) : ascii :=
  if n <? 10 then ascii_of_nat (48 + n) else ascii_of_nat (87 + n).

Definition hex_value (c : ascii) : option nat :=
  let n := nat_of_ascii c in
  if (48 <=? n) && (n <=? 57) then Some (n - 48)
  else if (97 <=? n) && (n <=? 102) then Some (n - 87)
  else if (65 <=? n) && (n <=? 70) then Some (n - 55)
  else None.

(** Quote, backslash and the control characters are escaped; the five
    control characters with a short form use it. *)
Definition escape_char (c : ascii) : string :=
  let n := nat_of_ascii c in
  if Ascii.eqb c dq then String bs (String dq "")
  else if Ascii.eqb c bs then String bs (String bs "")
  else if n =? 8 then String bs "b"
  else if n =? 9 then String bs "t"
  else if n =? 10 then String bs "n"
  else if n =? 12 then String bs "f"
  else if n =? 13 then String bs "r"
  else if n <? 32 then
    String bs ("u00" +:+ String (hex_digit (n / 16)) (String (hex_digit (n mod 16)) ""))
  else String c "".

Fixpoint escape (s : string) : string :=
  match s with
  | String c s' => escape_char c +:+ escape s'
  | EmptyString => ""
  end.

Definition quote (s : string) : string := String dq (escape s +:+ String dq "").

Definition member (k v : string) : string := quote k +:+ ":" +:+ quote v.

Definition stringify_stream (x : Stream) : string :=
  "{" +:+ member "title" (title x) +:+ "," +:+ member "url" (url x) +:+ "," +:+
  member "name" (name x) +:+ "}".

Fixpoint stringify_items (l : list Stream) : string :=
  match l with
  | [] => ""
  | [x] => stringify_stream x
  | x :: rest => stringify_stream x +:+ "," +:+ stringify_items rest
  end.

Definition stringify (l : list Stream) : string := "[" +:+ stringify_items l +:+ "]".

Inductive token : Type :=
| TLBracket | TRBracket | TLBrace | TRBrace | TColon | TComma
| TString (s : string).

(** The reader's position: between tokens, inside a string (with the
    characters read so far, last first), after a backslash, or inside the
    four digits of a code-unit escape. *)
Inductive mode : Type :=
| Out
| InStr (acc : list ascii)
| Esc (acc : list ascii)
| Uni (acc : list ascii) (digits : list nat).

Fixpoint string_of_rev (acc : list ascii) (tail : string) : string :=
  match acc with
  | [] => tail
  | c :: rest => string_of_rev rest (String c tail)
  end.

Definition lex_step (st : mode * list token) (c : ascii) : option (mode * list token) :=
  let '(m, toks) := st in
  let n := nat_of_ascii c in
  match m with
  | Out =>
      if Ascii.eqb c "["%char then Some (Out, TLBracket :: toks)
      else if Ascii.eqb c "]"%char then Some (Out, TRBracket :: toks)
      else if Ascii.eqb c "{"%char then Some (Out, TLBrace :: toks)
      else if Ascii.eqb c "}"%char then Some (Out, TRBrace :: toks)
      else if Ascii.eqb c ":"%char then Some (Out, TColon :: toks)
      else if Ascii.eqb c ","%char then Some (Out, TComma :: toks)
      else if Ascii.eqb c dq then Some (InStr [], toks)
      else if (n =? 32) || (n =? 9) || (n =? 10) || (n =? 13) then Some (Out, toks)
      else None
  | InStr acc =>
      if Ascii.eqb c dq then Some (Out, TString (string_of_rev acc "") :: toks)
      else if Ascii.eqb c bs then Some (Esc acc, toks)
      else if n <? 32 then None
      else Some (InStr (c :: acc), toks)
  | Esc acc =>
      if Ascii.eqb c dq then Some (InStr (dq :: acc), toks)
      else if Ascii.eqb c bs then Some (InStr (bs :: acc), toks)
      else if Ascii.eqb c "/"%char then Some (InStr ("/"%char :: acc), toks)
      else if Ascii.eqb c "b"%char then Some (InStr ("008"%char :: acc), toks)
      else if Ascii.eqb c "t"%char then Some (InStr ("009"%char :: acc), toks)
      else if Ascii.eqb c "n"%char then Some (InStr ("010"%char :: acc), toks)
      else if Ascii.eqb c "f"%char then Some (InStr ("012"%char :: acc), toks)
      else if Ascii.eqb c "r"%char then Some (InStr ("013"%char :: acc), toks)
      else if Ascii.eqb c "u"%char then Some (Uni acc [], toks)
      else None
  | Uni acc ds =>
      match hex_value c with
      | Some d =>
          match ds with
          | [d1; d2; d3] =>
              let code := ((d1 * 16 + d2) * 16 + d3) * 16 + d in
              if code <? 256 then Some (InStr (ascii_of_nat code :: acc), toks)
              else None
          | _ => Some (Uni acc (ds ++ [d]), toks)
          end
      | None => None
      end
  end.

Fixpoint lex_run (st : mode * list token) (s : string) : option (mode * list token) :=
  match s with
  | String c s' =>
      match lex_step st c with
      | Some st' => lex_run st' s'
      | None => None
      end
  | EmptyString => Some st
  end.

Definition lex (s : string) : option (list token) :=
  match lex_run (Out, []) s with
  | Some (Out, toks) => Some (rev toks)
  | _ => None
  end.

Fixpoint parse_items (toks : list token) : option (list Stream) :=
  match toks with
  | TLBrace :: TString k1 :: TColon :: TString t :: TComma ::
    TString k2 :: TColon :: TString u :: TComma ::
    TString k3 :: TColon :: TString n :: TRBrace :: rest =>
      if String.eqb k1 "title" && String.eqb k2 "url" && String.eqb k3 "name" then
        match rest with
        | [TRBracket] => Some [MkStream t u n]
        | TComma :: rest' =>
            match parse_items rest' with
            | Some l => Some (MkStream t u n :: l)
            | None => None
            end
        | _ => None
        end
      else None
  | _ => None
  end.

Definition parse_tokens (toks : list token) : option (list Stream) :=
  match toks with
  | [TLBracket; TRBracket] => Some []
  | TLBracket :: rest => parse_items rest
  | _ => None
  end.

Definition parse (s : string) : Outcome (list Stream) :=
  match lex s with
  | Some toks =>
      match parse_tokens toks with
      | Some l => Normal l
      | None => Throw (MkError "Unexpected token in JSON")
      end
  | None => Throw (MkError "Unexpected token in JSON")
  end.

End Json.

(* ================================================================= *)
(** ** A concrete environment for the examples

    Pages are served from a table; a target that is not in the table is a
    network failure.  The document builder and the reference resolver are
    tables of what the libraries answer on the pages and references of the
    examples: cheerio on the two pages, and the URL constructor on two
    relative references, on an absolute reference of another scheme and
    on a reference whose host has a space (a TypeError). *)

Definition dquote : string := String "034"%char "".

Definition Site : Type := list (string * string).

Fixpoint serve (pages : Site) (target : string) : Outcome string :=
  match pages with
  | (u, body) :: rest => if String.eqb u target then Normal body else serve rest target
  | [] => Throw (MkError "Network Error")
  end.

Definition player_url : string := "https://player.example.com/embed/42".
Definition master_url : string := "https://example.com/a/master.m3u8".

Definition page_with_player : string :=
  "<html><body><iframe src=" +:+ dquote +:+ player_url +:+ dquote +:+
  "></iframe></body></html>".

Definition page_frame_without_src : string :=
  "<html><body><iframe></iframe></body></html>".

Definition player_page : string :=
  "<script>player.setup({file: " +:+ dquote +:+ master_url +:+ dquote +:+ "});</script>".

Definition doc_with_player : list Node :=
  [Element "html" []
     [Element "head" [] [];
      Element "body" [] [Element "iframe" [("src", player_url)] []]]].

Definition doc_frame_without_src : list Node :=
  [Element "html" []
     [Element "head" [] []; Element "body" [] [Element "iframe" [] []]]].

Definition sample_cheerio_load (page : string) : list Node :=
  if String.eqb page page_with_player then doc_with_player
  else if String.eqb page page_frame_without_src then doc_frame_without_src
  else [Element "html" [] [Element "head" [] []; Element "body" [] [TextNode page]]].

Definition sample_URL_href (ref base : string) : Outcome string :=
  if String.eqb ref "720p.m3u8" && String.eqb base master_url
  then Normal "https://example.com/a/720p.m3u8"
  else if String.eqb ref "360p.m3u8" && String.eqb base master_url
  then Normal "https://example.com/a/360p.m3u8"
  else if String.eqb ref "ftp://media.example.org/v.m3u8"
  then Normal "ftp://media.example.org/v.m3u8"
  else if String.eqb ref "http://bad host/v.m3u8"
  then Throw (MkError "Invalid URL")
  else Throw (MkError "Invalid URL").

Definition sample_env (pages : Site) (faults : nat -> option JsError) : Env :=
  MkEnv (fun _ target => serve pages target) faults
        sample_cheerio_load sample_URL_href Json.stringify Json.parse.

Definition no_fault (t : nat) : option JsError := None.

Definition world0 : World := MkWorld ∅ 0 [].

Definition sample_master_text : string :=
  "#EXTM3U" +:+ nl +:+
  "#EXT-X-STREAM-INF:BANDWIDTH=2000000,RESOLUTION=1280x720" +:+ nl +:+
  "720p.m3u8" +:+ nl +:+
  "#EXT-X-STREAM-INF:BANDWIDTH=800000,RESOLUTION=640x360,CODECS=avc1" +:+ nl +:+
  "360p.m3u8" +:+ nl.

Definition master_single : string :=
  "#EXTM3U" +:+ nl +:+ "#EXTINF:10," +:+ nl +:+ "seg0.ts" +:+ nl.

Definition master_bad_host : string :=
  "#EXTM3U" +:+ nl +:+ "#EXT-X-STREAM-INF:RESOLUTION=1280x720" +:+ nl +:+
  "http://bad host/v.m3u8" +:+ nl.

Definition master_other_scheme : string :=
  "#EXTM3U" +:+ nl +:+ "#EXT-X-STREAM-INF:RESOLUTION=1280x720" +:+ nl +:+
  "ftp://media.example.org/v.m3u8" +:+ nl.

Definition primary_site (master_text : string) : Site :=
  [("https://cuevana3.me/movie-42", page_with_player);
   (player_url, player_page);
   (master_url, master_text)].

Definition primary_site_master_down : Site :=
  [("https://cuevana3.me/movie-42", page_with_player);
   (player_url, player_page)].

Definition primary_site_frame_without_src : Site :=
  [("https://cuevana3.me/movie-42", page_frame_without_src)].

Definition failover_site : Site :=
  [("https://pelisplushd.net/ver/movie-42", page_with_player);
   (player_url, player_page)].

Definition both_sites : Site :=
  ("https://pelisplushd.net/ver/movie-42", page_with_player) ::
  primary_site sample_master_text.

Definition cache_down (t : nat) : option JsError :=
  Some (MkError "Connection is closed.").

Definition write_fails (t : nat) : option JsError :=
  match t with
  | 0 => None
  | S _ => Some (MkError "Connection is closed.")
  end.

(** The store answers the commands issued before step [n] of the run and
    refuses the later ones. *)
Definition fails_from (n t : nat) : option JsError :=
  if Nat.ltb t n then None else Some (MkError "Connection is closed.").

Definition env_two_variants : Env := sample_env (primary_site sample_master_text) no_fault.
Definition env_single : Env := sample_env (primary_site master_single) no_fault.
Definition env_bad_host : Env := sample_env (primary_site master_bad_host) no_fault.
Definition env_other_scheme : Env := sample_env (primary_site master_other_scheme) no_fault.
Definition env_master_down : Env := sample_env primary_site_master_down no_fault.
Definition env_frame_without_src : Env := sample_env primary_site_frame_without_src no_fault.
Definition env_failover : Env := sample_env failover_site no_fault.
Definition env_both : Env := sample_env both_sites no_fault.
Definition env_offline : Env := sample_env [] no_fault.
Definition env_cache_down : Env := sample_env failover_site cache_down.
Definition env_write_fails : Env := sample_env failover_site write_fails.
Definition env_offline_cache_lost : Env := sample_env [] (fails_from 6).
Definition env_failover_cache_lost : Env := sample_env failover_site (fails_from 7).

(* ================================================================= *)
(** ** Vocabulary of the statements

    The definitions below are not part of the program: they name what the
    properties talk about (the shape of a match, absolute URLs, the events
    between two worlds, the world after the cache write). *)

(** All characters of [s] are in the class. *)
Fixpoint all_in (cls : ascii -> bool) (s : string) : bool :=
  match s with
  | String c s' => cls c && all_in cls s'
  | EmptyString => true
  end.

(** [n] respects the upper bound of a quantifier. *)
Definition within (max : option nat) (n : nat) : Prop :=
  match max with Some b => n <= b | None => True end.

(** What a quantified class consumed, whichever way it searched. *)
Definition rep_split {R : Type} (cls : ascii -> bool) (k : string -> option R)
    (min : nat) (max : option nat) (s : string) (r : R) : Prop :=
  exists mid rest,
    s = mid +:+ rest /\ all_in cls mid = true /\
    min <= String.length mid /\ within max (String.length mid) /\
    k rest = Some r.

(** [s] starts with [p]. *)
Fixpoint starts_with (p s : string) : bool :=
  match p with
  | EmptyString => true
  | String a p' =>
      match s with
      | String b s' => Ascii.eqb a b && starts_with p' s'
      | EmptyString => false
      end
  end.

(** A URL of the http or https scheme. *)
Definition http_url (u : string) : bool :=
  starts_with "http://" u || starts_with "https://" u.

(** The value of [iframeUrl] for a page (lines 113 and 171). *)
Definition frame_source (env : Env) (page : string) : option string :=
  cheerio_attr "src" (cheerio_select "iframe" (cheerio_load env page)).

(** Lines 137-151: the locators pushed for the entries of [qualities]. *)
Definition variant_stream (q : string * string) : Stream :=
  MkStream (fst q +:+ "p") (snd q) "Cuevana Stream".

Definition tiers (masterUrl : string) (qs : list (string * string)) : list Stream :=
  match qs with
  | [] => [MkStream "Auto (Master)" masterUrl "Cuevana Stream"]
  | _ :: _ => map variant_stream qs
  end.

(** Kinds of events. *)
Definition is_set (ev : Event) : bool :=
  match ev with ESet _ _ _ => true | _ => false end.

Definition is_fetch (ev : Event) : bool :=
  match ev with EFetch _ => true | _ => false end.

(** The events performed between two worlds. *)
Definition new_events (w w' : World) : list Event := skipn (step w) (log w').

(** [w'] is [w] after the events [evs], none of them a cache write. *)
Definition extends (w : World) (evs : list Event) (w' : World) : Prop :=
  store w' = store w /\ now w' = now w /\ log w' = log w ++ evs /\
  forallb (fun ev => negb (is_set ev)) evs = true.

(** The characters of a scheme: a letter, then letters, digits, plus,
    minus and dot. *)
Definition is_alpha (c : ascii) : bool :=
  let n := nat_of_ascii c in
  ((65 <=? n) && (n <=? 90)) || ((97 <=? n) && (n <=? 122)).

Definition is_scheme_char (c : ascii) : bool :=
  let n := nat_of_ascii c in
  is_alpha c || ((48 <=? n) && (n <=? 57)) || (n =? 43) || (n =? 45) || (n =? 46).

Fixpoint scheme_rest (s : string) : bool :=
  match s with
  | String c s' =>
      if Ascii.eqb c ":" then true
      else if is_scheme_char c then scheme_rest s' else false
  | EmptyString => false
  end.

(** A URL is absolute when it starts with a scheme and a colon. *)
Definition absolute_url (u : string) : bool :=
  match u with
  | String c s' => is_alpha c && scheme_rest s'
  | EmptyString => false
  end.

(** What the program relies on from [URL]: the [href] of a parsed URL is
    absolute. *)
Definition href_absolute (env : Env) : Prop :=
  forall ref base h, URL_href env ref base = Normal h -> absolute_url h = true.

(** An element named iframe. *)
Definition is_iframe (n : Node) : Prop :=
  match n with
  | Element t _ _ => t = "iframe"
  | TextNode _ => False
  end.

(** The world after line 96 has run on [w] for a non-empty list: the
    entry is stored, or the failure of the command has been caught and
    logged by the handler. *)
Definition after_set (env : Env) (key : string) (l : list Stream) (w : World) : World :=
  match redis_fault env (step w) with
  | None =>
      MkWorld (<[key := (JSON_stringify env l, (now w + 21600)%N)]> (store w))
              (now w) (log w ++ [ESet key (JSON_stringify env l) 21600])
  | Some e =>
      emit (EError ("Stream scrape failed: " +:+ message e))
        (emit (ESet key (JSON_stringify env l) 21600) w)
  end.

(** The world after lines 95-96. *)
Definition after_cache (env : Env) (key : string) (l : list Stream) (w : World) : World :=
  match l with
  | [] => w
  | _ :: _ => after_set env key l w
  end.

(** What the codec must do for the lists the handler stores. *)
Definition json_roundtrip (env : Env) : Prop :=
  forall l, JSON_parse env (JSON_stringify env l) = Normal l /\
            JSON_stringify env l <> "".

(** The accumulator of the reader after the characters of [s]. *)
Fixpoint push_chars (s : string) (acc : list ascii) : list ascii :=
  match s with
  | String c s' => push_chars s' (c :: acc)
  | EmptyString => acc
  end.

(** The tokens of the text written for a locator and for a list. *)
Definition stream_tokens (x : Stream) : list Json.token :=
  [Json.TLBrace; Json.TString "title"; Json.TColon; Json.TString (title x);
   Json.TComma; Json.TString "url"; Json.TColon; Json.TString (url x);
   Json.TComma; Json.TString "name"; Json.TColon; Json.TString (name x);
   Json.TRBrace].

Fixpoint items_tokens (l : list Stream) : list Json.token :=
  match l with
  | [] => []
  | [x] => stream_tokens x
  | x :: rest => stream_tokens x ++ Json.TComma :: items_tokens rest
  end.

(** The locator of the end-to-end example. *)
Definition failover_stream : Stream :=
  MkStream "Auto (Failover)" master_url "Failover Stream".

(* ================================================================= *)
(** ** The catalog and meta handlers (lines 24-75)

    The two handlers keep other variables than [streams], so their bodies
    run in the same monad over a variable of any type; the effects are the
    ones above.  What they need from outside besides [Env]: the text of a
    selection ([.text()]), the codecs of the two stored values and the
    message of the TypeError for a property read on [undefined]. *)

(** The objects pushed to [metas]: id, type, name and poster, which is
    [undefined] when the article has no image with a src. *)
Record MetaPreview : Type := MkMetaPreview {
  meta_id : string;
  meta_type : string;
  meta_name : string;
  meta_poster : option string
}.

(** The object built by the meta handler. *)
Record MetaDetail : Type := MkMetaDetail {
  detail_id : string;
  detail_type : string;
  detail_name : string;
  detail_poster : string;
  detail_description : string
}.

Record Codec (A : Type) : Type := MkCodec {
  stringify : A -> string;
  parse : string -> Outcome A
}.
Arguments MkCodec {A} stringify parse.
Arguments stringify {A} c a.
Arguments parse {A} c s.

Record Lib : Type := MkLib {
  cheerio_text : list Node -> string;
  metas_codec : Codec (list MetaPreview);
  meta_codec : Codec MetaDetail;
  undefined_read_message : string
}.

(** [$(el).find(tag)]: the descendants of [el] with that tag, in document
    order. *)
Definition cheerio_find (tag : string) (el : Node) : list Node :=
  match el with
  | Element _ _ cs => flat_map (select_node tag) cs
  | TextNode _ => []
  end.

(** White space and line terminators among one-byte code units. *)
Definition is_white_space (c : ascii) : bool :=
  let n := nat_of_ascii c in
  ((9 <=? n) && (n <=? 13)) || (n =? 32) || (n =? 160).

Fixpoint trim_start (s : string) : string :=
  match s with
  | String c s' => if is_white_space c then trim_start s' else s
  | EmptyString => EmptyString
  end.

Fixpoint trim_end (s : string) : string :=
  match s with
  | String c s' =>
      match trim_end s' with
      | EmptyString => if is_white_space c then EmptyString else String c EmptyString
      | t => String c t
      end
  | EmptyString => EmptyString
  end.

(** [str.trim()]. *)
Definition String_trim (s : string) : string := trim_end (trim_start s).

(** [str.split(sep)] for a separator of one character: the segments
    between the separators, always at least one. *)
Fixpoint String_split (sep : ascii) (s : string) : list string :=
  match s with
  | EmptyString => [EmptyString]
  | String c s' =>
      if Ascii.eqb c sep then EmptyString :: String_split sep s'
      else
        match String_split sep s' with
        | seg :: segs => String c seg :: segs
        | [] => [String c EmptyString]
        end
  end.

(** [href.split('/').pop()] (line 40); [split] answers at least one
    segment, so [pop] never answers [undefined] and the default is never
    read. *)
Definition contentId_of (href : string) : string :=
  List.last (String_split "/" href) EmptyString.

Definition MS (S A : Type) : Type := S -> World -> Outcome A * S * World.

Definition ret_in {S A : Type} (a : A) : MS S A := fun s w => (Normal a, s, w).

Definition bind_in {S A B : Type} (m : MS S A) (k : A -> MS S B) : MS S B :=
  fun s w =>
    match m s w with
    | (Normal a, s', w') => k a s' w'
    | (Throw e, s', w') => (Throw e, s', w')
    end.

Definition throw_in {S A : Type} (e : JsError) : MS S A := fun s w => (Throw e, s, w).

Definition try_catch_in {S : Type} (body : MS S unit) (handler : JsError -> MS S unit)
    : MS S unit :=
  fun s w =>
    match body s w with
    | (Normal a, s', w') => (Normal a, s', w')
    | (Throw e, s', w') => handler e s' w'
    end.

Definition lift_in {S A : Type} (o : Outcome A) : MS S A := fun s w => (o, s, w).

Definition get_var {S : Type} : MS S S := fun s w => (Normal s, s, w).
Definition set_var {S : Type} (v : S) : MS S unit := fun _ w => (Normal tt, v, w).
Definition push_var {A : Type} (x : A) : MS (list A) unit :=
  fun s w => (Normal tt, s ++ [x], w).

(** An effect of the program, which leaves the variable alone. *)
Definition effect {S A : Type} (m : M A) : MS S A :=
  fun s w => let '(o, _, w') := m [] w in (o, s, w').

Definition function_in {S A : Type} (init : S) (body : MS S A) : Fn A :=
  fun w => let '(o, _, w') := body init w in (o, w').

Notation "'let+' x ':=' m 'in' k" := (bind_in m (fun x => k))
  (at level 10, x name, m at level 100, k at level 200).
Notation "m '>>+' k" := (bind_in m (fun _ => k))
  (at level 100, k at level 200, right associativity).

(** [selection.each(f)]: the elements in order; a throw of [f] ends it. *)
Fixpoint each_in {S A : Type} (f : A -> MS S unit) (l : list A) : MS S unit :=
  match l with
  | [] => ret_in tt
  | x :: rest => f x >>+ each_in f rest
  end.

Section Handlers.

Variable env : Env.
Variable lib : Lib.

(** The callback of lines 36-48. *)
Definition catalog_article (type : string) (el : Node) : MS (list MetaPreview) unit :=
  let title := String_trim (cheerio_text lib (cheerio_find "h2" el)) in
  let poster := cheerio_attr "src" (cheerio_find "img" el) in
  let href := cheerio_attr "href" (cheerio_find "a" el) in
  match href with
  | Some href' =>
      let contentId := contentId_of href' in
      push_var (MkMetaPreview contentId type title poster)
  | None => throw_in (MkError (undefined_read_message lib))
  end.

(** The [try] block, lines 31-50. *)
Definition catalogHandler_try (type cacheKey : string) : MS (list MetaPreview) unit :=
  let target :=
    if String.eqb type "series" then "https://cuevana3.me/series"
    else "https://cuevana3.me/" in
  let+ res := effect (axios_get env target) in
  let doc := cheerio_load env res in
  each_in (catalog_article type) (cheerio_select "article" doc) >>+
  let+ metas := get_var in
  effect (redis_set env cacheKey (stringify (metas_codec lib) metas) 3600%N).

(** The catalog handler (lines 24-57). *)
Definition catalogHandler (type id : string) : Fn (list MetaPreview) :=
  function_in [] (
    let cacheKey := "catalog:" +:+ type +:+ ":" +:+ id in
    let+ cached := effect (redis_get env cacheKey) in
    if truthy cached then lift_in (parse (metas_codec lib) (text_of cached))
    else
      set_var [] >>+
      try_catch_in (catalogHandler_try type cacheKey)
        (fun err => effect (console_error ("Catalog scrape failed: " +:+ message err))) >>+
      get_var).

(** The meta handler (lines 60-75). *)
Definition metaHandler (id type : string) : Fn MetaDetail :=
  function_in tt (
    let cacheKey := "meta:" +:+ id in
    let+ cached := effect (redis_get env cacheKey) in
    if truthy cached then lift_in (parse (meta_codec lib) (text_of cached))
    else
      let meta :=
        MkMetaDetail id type ("Scraped " +:+ id)
                     "https://via.placeholder.com/300" "Auto scraped" in
      effect (redis_set env cacheKey (stringify (meta_codec lib) meta) (24 * 3600)%N) >>+
      ret_in meta).

End Handlers.

(* ================================================================= *)
(** ** Codecs and an environment for the catalog and meta examples

    The texts [JSON.stringify] writes for the list of [metas] (a member
    whose value is [undefined] is left out) and for the [meta] object,
    with readers of such texts that throw on any other text. *)

Module MetaJson.

Import Json.

Definition stringify_preview (m : MetaPreview) : string :=
  "{" +:+ member "id" (meta_id m) +:+ "," +:+ member "type" (meta_type m) +:+ "," +:+
  member "name" (meta_name m) +:+
  match meta_poster m with
  | Some p => "," +:+ member "poster" p +:+ "}"
  | None => "}"
  end.

Fixpoint stringify_preview_items (l : list MetaPreview) : string :=
  match l with
  | [] => EmptyString
  | [m] => stringify_preview m
  | m :: rest => stringify_preview m +:+ "," +:+ stringify_preview_items rest
  end.

Definition stringify_previews (l : list MetaPreview) : string :=
  "[" +:+ stringify_preview_items l +:+ "]".

Fixpoint parse_preview_items (toks : list token) : option (list MetaPreview) :=
  match toks with
  | TLBrace :: TString k1 :: TColon :: TString i :: TComma ::
    TString k2 :: TColon :: TString t :: TComma ::
    TString k3 :: TColon :: TString n :: rest =>
      if String.eqb k1 "id" && String.eqb k2 "type" && String.eqb k3 "name" then
        match rest with
        | TRBrace :: rest' =>
            match rest' with
            | [TRBracket] => Some [MkMetaPreview i t n None]
            | TComma :: more =>
                match parse_preview_items more with
                | Some l => Some (MkMetaPreview i t n None :: l)
                | None => None
                end
            | _ => None
            end
        | TComma :: TString k4 :: TColon :: TString p :: TRBrace :: rest' =>
            if String.eqb k4 "poster" then
              match rest' with
              | [TRBracket] => Some [MkMetaPreview i t n (Some p)]
              | TComma :: more =>
                  match parse_preview_items more with
                  | Some l => Some (MkMetaPreview i t n (Some p) :: l)
                  | None => None
                  end
              | _ => None
              end
            else None
        | _ => None
        end
      else None
  | _ => None
  end.

Definition parse_preview_tokens (toks : list token) : option (list MetaPreview) :=
  match toks with
  | [TLBracket; TRBracket] => Some []
  | TLBracket :: rest => parse_preview_items rest
  | _ => None
  end.

Definition parse_previews (s : string) : Outcome (list MetaPreview) :=
  match lex s with
  | Some toks =>
      match parse_preview_tokens toks with
      | Some l => Normal l
      | None => Throw (MkError "Unexpected token in JSON")
      end
  | None => Throw (MkError "Unexpected token in JSON")
  end.

Definition stringify_detail (m : MetaDetail) : string :=
  "{" +:+ member "id" (detail_id m) +:+ "," +:+ member "type" (detail_type m) +:+ "," +:+
  member "name" (detail_name m) +:+ "," +:+ member "poster" (detail_poster m) +:+ "," +:+
  member "description" (detail_description m) +:+ "}".

Definition parse_detail (s : string) : Outcome MetaDetail :=
  match lex s with
  | Some [TLBrace; TString k1; TColon; TString i; TComma;
          TString k2; TColon; TString t; TComma;
          TString k3; TColon; TString n; TComma;
          TString k4; TColon; TString p; TComma;
          TString k5; TColon; TString d; TRBrace] =>
      if String.eqb k1 "id" && String.eqb k2 "type" && String.eqb k3 "name" &&
         String.eqb k4 "poster" && String.eqb k5 "description"
      then Normal (MkMetaDetail i t n p d)
      else Throw (MkError "Unexpected token in JSON")
  | _ => Throw (MkError "Unexpected token in JSON")
  end.

End MetaJson.

(** The text of a selection: the text nodes below its elements, in
    document order. *)
Fixpoint text_content (n : Node) : string :=
  match n with
  | Element _ _ cs =>
      fold_right (fun c acc => text_content c +:+ acc) EmptyString cs
  | TextNode t => t
  end.

Definition sample_text (sel : list Node) : string :=
  fold_right (fun n acc => text_content n +:+ acc) EmptyString sel.

Definition sample_lib : Lib :=
  MkLib sample_text
        (MkCodec MetaJson.stringify_previews MetaJson.parse_previews)
        (MkCodec MetaJson.stringify_detail MetaJson.parse_detail)
        "Cannot read properties of undefined (reading 'split')".

Definition article_movie : Node :=
  Element "article" []
    [Element "a" [("href", "https://cuevana3.me/pelicula/movie-42")]
       [Element "img" [("src", "https://img.example.com/42.jpg")] [];
        Element "h2" [] [TextNode " Movie 42 "]]].

Definition article_show : Node :=
  Element "article" []
    [Element "a" [("href", "/serie/show-7")] [Element "h2" [] [TextNode "Show 7"]]].

Definition article_without_link : Node :=
  Element "article" [] [Element "h2" [] [TextNode "Coming soon"]].

Definition tag_attr (k v : string) : string :=
  " " +:+ k +:+ "=" +:+ dquote +:+ v +:+ dquote.

Definition html_movie : string :=
  "<article><a" +:+ tag_attr "href" "https://cuevana3.me/pelicula/movie-42" +:+ ">" +:+
  "<img" +:+ tag_attr "src" "https://img.example.com/42.jpg" +:+ ">" +:+
  "<h2> Movie 42 </h2></a></article>".

Definition html_show : string :=
  "<article><a" +:+ tag_attr "href" "/serie/show-7" +:+ "><h2>Show 7</h2></a></article>".

Definition html_without_link : string := "<article><h2>Coming soon</h2></article>".

Definition listing_page : string := html_movie +:+ html_show.
Definition listing_page_broken : string :=
  html_movie +:+ html_without_link +:+ html_show.
Definition listing_page_empty : string := "<p>No results</p>".

Definition catalog_cheerio_load (page : string) : list Node :=
  if String.eqb page listing_page then
    [Element "html" []
       [Element "head" [] []; Element "body" [] [article_movie; article_show]]]
  else if String.eqb page listing_page_broken then
    [Element "html" []
       [Element "head" [] [];
        Element "body" [] [article_movie; article_without_link; article_show]]]
  else if String.eqb page listing_page_empty then
    [Element "html" []
       [Element "head" [] [];
        Element "body" [] [Element "p" [] [TextNode "No results"]]]]
  else [Element "html" [] [Element "head" [] []; Element "body" [] [TextNode page]]].

Definition catalog_env (pages : Site) (faults : nat -> option JsError) : Env :=
  MkEnv (fun _ target => serve pages target) faults
        catalog_cheerio_load sample_URL_href Json.stringify Json.parse.

Definition env_listing : Env :=
  catalog_env [("https://cuevana3.me/", listing_page)] no_fault.
Definition env_listing_broken : Env :=
  catalog_env [("https://cuevana3.me/", listing_page_broken)] no_fault.
Definition env_listing_empty : Env :=
  catalog_env [("https://cuevana3.me/series", listing_page_empty)] no_fault.

Definition env_meta_write_fails : Env := catalog_env [] write_fails.

Definition preview_movie : MetaPreview :=
  MkMetaPreview "movie-42" "movie" "Movie 42" (Some "https://img.example.com/42.jpg").
Definition preview_show : MetaPreview :=
  MkMetaPreview "show-7" "movie" "Show 7" None.

Definition detail_movie : MetaDetail :=
  MkMetaDetail "movie-42" "movie" "Scraped movie-42"
               "https://via.placeholder.com/300" "Auto scraped".

(* ================================================================= *)
(** ** Vocabulary of the further properties *)

(** The link of an article (line 39) and the object pushed for an article
    that has one (lines 37-47). *)
Definition article_link (el : Node) : option string :=
  cheerio_attr "href" (cheerio_find "a" el).

Definition preview (lib : Lib) (type : string) (el : Node) : MetaPreview :=
  MkMetaPreview (contentId_of (text_of (article_link el))) type
                (String_trim (cheerio_text lib (cheerio_find "h2" el)))
                (cheerio_attr "src" (cheerio_find "img" el)).

Definition linked (el : Node) : bool :=
  match article_link el with Some _ => true | None => false end.

(** The articles before the first one without a link. *)
Fixpoint linked_prefix (arts : list Node) : list Node :=
  match arts with
  | el :: rest => if linked el then el :: linked_prefix rest else []
  | [] => []
  end.

(** The page the catalog handler fetches (line 32). *)
Definition catalog_target (type : string) : string :=
  if String.eqb type "series" then "https://cuevana3.me/series"
  else "https://cuevana3.me/".

(** The number of fetches among events. *)
Definition fetches (evs : list Event) : nat := length (List.filter is_fetch evs).

Definition not_slash (c : ascii) : bool := negb (Ascii.eqb c "/").

Fixpoint last_char (s : string) : option ascii :=
  match s with
  | String c EmptyString => Some c
  | String _ s' => last_char s'
  | EmptyString => None
  end.

(** Neither the first nor the last character is white space. *)
Definition no_space_at_ends (s : string) : Prop :=
  match s with String c _ => is_white_space c = false | EmptyString => True end /\
  match last_char s with Some c => is_white_space c = false | None => True end.

(** What a codec must do for the values a handler stores. *)
Definition codec_roundtrip {A : Type} (c : Codec A) : Prop :=
  forall a, parse c (stringify c a) = Normal a /\ stringify c a <> EmptyString.

(** [segments.join(sep)]. *)
Fixpoint join (sep : string) (l : list string) : string :=
  match l with
  | [] => EmptyString
  | [x] => x
  | x :: rest => x +:+ sep +:+ join sep rest
  end.

(** The text left after the longest prefix of characters of a class. *)
Fixpoint after_class (cls : ascii -> bool) (s : string) : string :=
  match s with
  | String c s' => if cls c then after_class cls s' else s
  | EmptyString => EmptyString
  end.

(** The text is over or goes on with a character outside the class. *)
Definition stops_at (cls : ascii -> bool) (rest : string) : Prop :=
  match rest with
  | String c _ => cls c = false
  | EmptyString => True
  end.


(** The tokens of the text of a list of catalog objects. *)
Definition preview_tokens (m : MetaPreview) : list Json.token :=
  [Json.TLBrace; Json.TString "id"; Json.TColon; Json.TString (meta_id m);
   Json.TComma; Json.TString "type"; Json.TColon; Json.TString (meta_type m);
   Json.TComma; Json.TString "name"; Json.TColon; Json.TString (meta_name m)] ++
  match meta_poster m with
  | Some p => [Json.TComma; Json.TString "poster"; Json.TColon; Json.TString p; Json.TRBrace]
  | None => [Json.TRBrace]
  end.

Fixpoint preview_items_tokens (l : list MetaPreview) : list Json.token :=
  match l with
  | [] => []
  | [m] => preview_tokens m
  | m :: rest => preview_tokens m ++ Json.TComma :: preview_items_tokens rest
  end.

(** The object of lines 65-71. *)
Definition detail_of (id type : string) : MetaDetail :=
  MkMetaDetail id type ("Scraped " +:+ id) "https://via.placeholder.com/300"
               "Auto scraped".


(** The three kinds of request the addon answers, the key each handler
    uses for its cache entry (lines 25, 61 and 79) and the world a handler
    leaves. *)
Inductive Request : Type :=
| StreamRequest (id : string)
| MetaRequest (id type : string)
| CatalogRequest (type id : string).

Definition cacheKey (r : Request) : string :=
  match r with
  | StreamRequest id => "stream:" +:+ id
  | MetaRequest id _ => "meta:" +:+ id
  | CatalogRequest type id => "catalog:" +:+ type +:+ ":" +:+ id
  end.

Definition world_after (env : Env) (lib : Lib) (r : Request) (w : World) : World :=
  match r with
  | StreamRequest id => snd (streamHandler env id w)
  | MetaRequest id type => snd (metaHandler env lib id type w)
  | CatalogRequest type id => snd (catalogHandler env lib type id w)
  end.

Definition not_colon (c : ascii) : bool := negb (Ascii.eqb c ":").

(** The type of a catalog request has no colon. *)
Definition plain_type (r : Request) : Prop :=
  match r with
  | CatalogRequest type _ => all_in not_colon type = true
  | _ => True
  end.

(** Two requests that are answered from the same cache entry. *)
Definition same_entry (r r' : Request) : Prop :=
  match r, r' with
  | StreamRequest a, StreamRequest b => a = b
  | MetaRequest a _, MetaRequest b _ => a = b
  | CatalogRequest t i, CatalogRequest t' i' => t = t' /\ i = i'
  | _, _ => False
  end.

(** A title made of a height: one or more digits, then the letter p. *)
Definition height_title (t : string) : Prop :=
  exists q, t = q +:+ "p" /\ q <> EmptyString /\ all_in cls_digit q = true.

(** Further sample environments: the store refuses every command after
    the first, or every command. *)
Definition env_listing_write_fails : Env :=
  catalog_env [("https://cuevana3.me/", listing_page)] write_fails.

Definition env_store_down : Env := catalog_env [] cache_down.
(* ================================================================= *)
(** ** Strings *)

Lemma length_append (a b : string) :
  String.length (a +:+ b) = String.length a + String.length b.
Proof. induction a as [|c a IH]; simpl; [reflexivity | now rewrite IH]. Qed.

Lemma append_assoc (a b c : string) : (a +:+ b) +:+ c = a +:+ (b +:+ c).
Proof. induction a as [|x a IH]; simpl; [reflexivity | now rewrite IH]. Qed.

Lemma substring_append (a b : string) :
  substring 0 (String.length a) (a +:+ b) = a.
Proof.
  induction a as [|c a IH]; simpl.
  - now destruct b.
  - now rewrite IH.
Qed.

Lemma consumed_append (a b : string) : consumed (a +:+ b) b = a.
Proof.
  unfold consumed. rewrite length_append.
  replace (String.length a + String.length b - String.length b)
    with (String.length a) by lia.
  apply substring_append.
Qed.

(* ================================================================= *)
(** ** The matcher *)

Lemma rep_split_here {R : Type} cls (k : string -> option R) max s r :
  k s = Some r -> rep_split cls k 0 max s r.
Proof.
  intros H. exists "", s. repeat split; auto.
  destruct max; simpl; lia.
Qed.

Lemma rep_split_more {R : Type} cls (k : string -> option R) min max c s r :
  cls c = true -> max <> Some 0 ->
  rep_split cls k (pred min) (max_pred max) s r ->
  rep_split cls k min max (String c s) r.
Proof.
  intros Hc Hmax (mid & rest & -> & Hall & Hmin & Hmx & Hk).
  exists (String c mid), rest. simpl. rewrite Hc, Hall.
  repeat split; auto; try lia.
  destruct max as [[|b]|]; simpl in *; try lia. congruence.
Qed.

Lemma rep_greedy_split {R : Type} cls (k : string -> option R) s :
  forall min max r,
    rep_greedy cls k min max s = Some r -> rep_split cls k min max s r.
Proof.
  induction s as [|c s IH]; intros min max r H.
  - destruct max as [[|b]|], min; simpl in H; try discriminate;
      now apply rep_split_here.
  - assert (Hstop : match min with 0 => k (String c s) | S _ => None end = Some r ->
                    rep_split cls k min max (String c s) r).
    { destruct min; [apply rep_split_here | discriminate]. }
    destruct max as [[|b]|]; simpl in H; auto.
    + destruct (cls c) eqn:Hc; auto.
      destruct (rep_greedy cls k (pred min) (Some b) s) eqn:Hg; auto.
      injection H as <-.
      apply rep_split_more; [assumption | discriminate | now apply IH].
    + destruct (cls c) eqn:Hc; auto.
      destruct (rep_greedy cls k (pred min) None s) eqn:Hg; auto.
      injection H as <-.
      apply rep_split_more; [assumption | discriminate | now apply IH].
Qed.

Lemma rep_lazy_split {R : Type} cls (k : string -> option R) s :
  forall min max r,
    rep_lazy cls k min max s = Some r -> rep_split cls k min max s r.
Proof.
  induction s as [|c s IH]; intros min max r H.
  - destruct max as [[|b]|], min; simpl in H; try discriminate;
      destruct (k "") eqn:Hk; try discriminate; injection H as <-;
      now apply rep_split_here.
  - assert (Hmore : match max with
                    | Some 0 => None
                    | _ => if cls c then rep_lazy cls k (pred min) (max_pred max) s else None
                    end = Some r -> rep_split cls k min max (String c s) r).
    { intros Hm. destruct max as [[|b]|]; try discriminate;
        destruct (cls c) eqn:Hc; try discriminate;
        (apply rep_split_more; [assumption | discriminate | now apply IH]). }
    destruct min as [|min].
    + simpl in H. destruct (k (String c s)) eqn:Hk.
      * injection H as <-. now apply rep_split_here.
      * apply Hmore. destruct max as [[|b]|]; auto.
    + simpl in H. apply Hmore. destruct max as [[|b]|]; auto.
Qed.

Lemma run_Chr c p st s res :
  run (Chr c :: p) st s = Some res ->
  exists s', s = String c s' /\ run p st s' = Some res.
Proof.
  simpl. destruct s as [|c' s']; [discriminate|].
  destruct (Ascii.eqb_spec c c'); [subst|discriminate]. eauto.
Qed.

Lemma run_Rep cls min max g p st s res :
  run (Rep cls min max g :: p) st s = Some res ->
  rep_split cls (run p st) min max s res.
Proof.
  simpl. destruct g; [apply rep_greedy_split | apply rep_lazy_split].
Qed.

(** A match consumes a prefix of the text. *)
Lemma run_suffix p : forall st s st' rest,
  run p st s = Some (st', rest) -> exists x, s = x +:+ rest.
Proof.
  induction p as [|a p IH]; intros st s st' rest H.
  - injection H as <- <-. now exists "".
  - destruct a as [c|cls min max g| |].
    + apply run_Chr in H as (s' & -> & H). apply IH in H as (x & ->).
      now exists (String c x).
    + apply run_Rep in H as (mid & r & -> & _ & _ & _ & H).
      apply IH in H as (x & ->). exists (mid +:+ x). now rewrite append_assoc.
    + simpl in H. now apply IH in H.
    + simpl in H. destruct (opened st); [discriminate|]. now apply IH in H.
Qed.

Lemma String_match_run p s m :
  String_match p s = Some m ->
  exists s' st rest, run p mstate0 s' = Some (st, rest) /\ m = captured st.
Proof.
  induction s as [|c s IH]; simpl; intros H.
  - destruct (run p mstate0 "") as [[st rest]|] eqn:Hr; [|discriminate].
    injection H as <-. eauto.
  - destruct (run p mstate0 (String c s)) as [[st rest]|] eqn:Hr.
    + injection H as <-. eauto.
    + auto.
Qed.

Lemma run_Open p st s :
  run (Open :: p) st s = run p (MState (s :: opened st) (captured st)) s.
Proof. reflexivity. Qed.

Lemma run_Close p start o caps s :
  run (Close :: p) (MState (start :: o) caps) s =
  run p (MState o (caps ++ [consumed start s])) s.
Proof. reflexivity. Qed.

Lemma run_nil st s : run [] st s = Some (st, s).
Proof. reflexivity. Qed.

(** Group 1 of the master pattern starts with the http or https scheme. *)
Lemma master_re_capture s st rest :
  run master_re mstate0 s = Some (st, rest) ->
  exists u, captured st = [u] /\ http_url u = true /\ s = u +:+ rest.
Proof.
  unfold master_re, mstate0. cbn [lits List.app]. rewrite run_Open. intros H.
  do 4 (apply run_Chr in H as (? & -> & H)).
  apply run_Rep in H as (o & ? & -> & Ho & _ & Hlen & H).
  do 3 (apply run_Chr in H as (? & -> & H)).
  apply run_Rep in H as (mid & ? & -> & _ & _ & _ & H).
  do 5 (apply run_Chr in H as (? & -> & H)).
  apply run_Rep in H as (tail & r & -> & _ & _ & _ & H).
  cbn [opened captured] in H. rewrite run_Close, run_nil in H.
  injection H as <- <-. cbn [captured List.app].
  set (s := String "h" _).
  assert (Hs : s = ("http" +:+ o +:+ "://" +:+ mid +:+ ".m3u8" +:+ tail) +:+ r).
  { subst s. simpl. rewrite !append_assoc. simpl. rewrite !append_assoc. reflexivity. }
  clearbody s. subst s. rewrite consumed_append.
  eexists; split; [reflexivity|]. split; [|reflexivity].
  destruct o as [|c [|c' o]].
  - reflexivity.
  - cbn [all_in] in Ho. apply andb_prop in Ho as [Hc _].
    apply Ascii.eqb_eq in Hc as <-. reflexivity.
  - simpl in Hlen. lia.
Qed.

Lemma master_match_http s m :
  String_match master_re s = Some m -> http_url (group 1 m) = true.
Proof.
  intros H. apply String_match_run in H as (s' & st & rest & H & ->).
  apply master_re_capture in H as (u & -> & Hu & _). exact Hu.
Qed.

Lemma http_url_truthy u : http_url u = true -> truthy (Some u) = true.
Proof. destruct u; [discriminate | reflexivity]. Qed.

(** Every match of the variant pattern is non-empty, so the loop of
    successive matches advances, and has two groups. *)
Lemma variant_re_progress s st rest :
  run variant_re mstate0 s = Some (st, rest) ->
  String.length rest < String.length s.
Proof.
  unfold variant_re. cbn [lits List.app]. intros H.
  apply run_Chr in H as (s1 & -> & H).
  apply run_suffix in H as (x & ->).
  simpl. rewrite length_append. lia.
Qed.

Lemma variant_re_groups s st rest :
  run variant_re mstate0 s = Some (st, rest) -> length (captured st) = 2.
Proof.
  unfold variant_re, mstate0, nl. cbn [lits List.app]. intros H.
  do 18 (apply run_Chr in H as (? & -> & H)).
  apply run_Rep in H as (? & ? & -> & _ & _ & _ & H).
  do 11 (apply run_Chr in H as (? & -> & H)).
  apply run_Rep in H as (? & ? & -> & _ & _ & _ & H).
  apply run_Chr in H as (? & -> & H).
  rewrite run_Open in H.
  apply run_Rep in H as (? & ? & -> & _ & _ & _ & H).
  cbn [opened captured] in H. rewrite run_Close in H.
  apply run_Rep in H as (? & ? & -> & _ & _ & _ & H).
  apply run_Chr in H as (? & -> & H).
  rewrite run_Open in H.
  apply run_Rep in H as (? & ? & -> & _ & _ & _ & H).
  do 5 (apply run_Chr in H as (? & -> & H)).
  cbn [opened captured] in H. rewrite run_Close, run_nil in H.
  injection H as <- _. reflexivity.
Qed.

(* ================================================================= *)
(** ** The monad and the effects *)

Lemma step_emit ev w : step (emit ev w) = S (step w).
Proof. unfold step, emit. simpl. rewrite length_app. simpl. lia. Qed.

Lemma forEach_push {A : Type} (f : A -> Stream) (l : list A) : forall fr w,
  forEach (fun q => push_stream (f q)) l fr w = (Normal tt, fr ++ map f l, w).
Proof.
  induction l as [|x l IH]; intros fr w; simpl.
  - unfold ret. now rewrite app_nil_r.
  - unfold bind, push_stream at 1. rewrite IH. now rewrite <- app_assoc.
Qed.

(** A function whose body is [let streams = []; try { ... } catch (err) {
    console.warn(...) } return streams] answers the value of [streams]
    when the [try] block ends, and never throws. *)
Lemma guarded_function (body : M unit) (msg : JsError -> string) w :
  function (set_streams [] >>
            try_catch body (fun err => console_warn (msg err)) >>
            get_streams) w =
  match body [] w with
  | (Normal _, fr, w') => (Normal fr, w')
  | (Throw e, fr, w') => (Normal fr, emit (EWarn (msg e)) w')
  end.
Proof.
  unfold function, bind, set_streams, try_catch, get_streams, console_warn.
  destruct (body [] w) as [[[a|e] fr] w']; reflexivity.
Qed.

Lemma scrapeCuevanaStream_unfold env id w :
  scrapeCuevanaStream env id w =
  match scrapeCuevanaStream_try env id [] w with
  | (Normal _, fr, w') => (Normal fr, w')
  | (Throw e, fr, w') =>
      (Normal fr, emit (EWarn ("Primary scrape error: " +:+ message e)) w')
  end.
Proof. apply guarded_function. Qed.

Lemma scrapeFailoverStream_unfold env id w :
  scrapeFailoverStream env id w =
  match scrapeFailoverStream_try env id [] w with
  | (Normal _, fr, w') => (Normal fr, w')
  | (Throw e, fr, w') =>
      (Normal fr, emit (EWarn ("Failover scrape error: " +:+ message e)) w')
  end.
Proof. apply guarded_function. Qed.

Lemma extends_emit w evs w' ev :
  extends w evs w' -> is_set ev = false -> extends w (evs ++ [ev]) (emit ev w').
Proof.
  intros (Hs & Hn & Hl & Hf) Hev. unfold extends, emit. simpl.
  rewrite Hl, <- app_assoc, forallb_app, Hf. simpl. now rewrite Hev.
Qed.

Lemma extends_refl w : extends w [] w.
Proof. unfold extends. now rewrite app_nil_r. Qed.

(** The stages of the primary resolver: each one either stops the [try]
    block with a throw or hands over to the next. *)
Ltac primary_stages env w :=
  unfold scrapeCuevanaStream_try, bind, axios_get, throw, lift; cbv beta;
  destruct (http env (step w) _) as [res|e] eqn:Hpage;
  [ destruct (truthy _) eqn:Hsrc; cbn [negb];
    [ rewrite ?step_emit;
      destruct (http env (S (step w)) _) as [iframeHtml|e] eqn:Hplayer;
      [ destruct (String_match master_re iframeHtml) as [m|] eqn:Hm;
        [ rewrite (http_url_truthy _ (master_match_http _ _ Hm));
          rewrite ?step_emit;
          destruct (http env (S (S (step w))) _) as [playlist|e] eqn:Hmaster;
          [ destruct (map_outcome _ _) as [[|q qs]|e] eqn:Hqs;
            [ | rewrite forEach_push | ]
          | ]
        | ]
      | ]
    | ]
  | ].

Ltac failover_stages env w :=
  unfold scrapeFailoverStream_try, bind, axios_get, throw; cbv beta;
  destruct (http env (step w) _) as [res|e] eqn:Hpage;
  [ destruct (truthy _) eqn:Hsrc; cbn [negb];
    [ rewrite ?step_emit;
      destruct (http env (S (step w)) _) as [iframeHtml|e] eqn:Hplayer;
      [ destruct (String_match master_re iframeHtml) as [m|] eqn:Hm;
        [ rewrite (http_url_truthy _ (master_match_http _ _ Hm)) | ]
      | ]
    | ]
  | ].

(** When every stage succeeds the primary resolver answers the tiers. *)
Lemma primary_success env id w res iframeHtml m playlist qs :
  http env (step w) ("https://cuevana3.me/" +:+ id) = Normal res ->
  truthy (frame_source env res) = true ->
  http env (S (step w)) (text_of (frame_source env res)) = Normal iframeHtml ->
  String_match master_re iframeHtml = Some m ->
  http env (S (S (step w))) (group 1 m) = Normal playlist ->
  map_outcome (quality_of env (group 1 m)) (exec_all variant_re playlist 0) = Normal qs ->
  scrapeCuevanaStream env id w =
  (Normal (tiers (group 1 m) qs),
   emit (EFetch (group 1 m))
     (emit (EFetch (text_of (frame_source env res)))
        (emit (EFetch ("https://cuevana3.me/" +:+ id)) w))).
Proof.
  unfold frame_source. intros Hpage Hsrc Hplayer Hm Hmaster Hqs.
  rewrite scrapeCuevanaStream_unfold.
  unfold scrapeCuevanaStream_try, bind, axios_get, throw, lift; cbv beta.
  rewrite Hpage, Hsrc. cbn [negb]. rewrite step_emit, Hplayer, Hm.
  rewrite (http_url_truthy _ (master_match_http _ _ Hm)).
  rewrite !step_emit, Hmaster, Hqs.
  destruct qs as [|q qs]; [reflexivity|].
  rewrite forEach_push. reflexivity.
Qed.

Lemma failover_success env id w res iframeHtml m :
  http env (step w) ("https://pelisplushd.net/ver/" +:+ id) = Normal res ->
  truthy (frame_source env res) = true ->
  http env (S (step w)) (text_of (frame_source env res)) = Normal iframeHtml ->
  String_match master_re iframeHtml = Some m ->
  scrapeFailoverStream env id w =
  (Normal [MkStream "Auto (Failover)" (group 1 m) "Failover Stream"],
   emit (EFetch (text_of (frame_source env res)))
     (emit (EFetch ("https://pelisplushd.net/ver/" +:+ id)) w)).
Proof.
  unfold frame_source. intros Hpage Hsrc Hplayer Hm.
  rewrite scrapeFailoverStream_unfold.
  unfold scrapeFailoverStream_try, bind, axios_get, throw; cbv beta.
  rewrite Hpage, Hsrc. cbn [negb]. rewrite step_emit, Hplayer, Hm.
  rewrite (http_url_truthy _ (master_match_http _ _ Hm)). reflexivity.
Qed.

(** Both resolvers return normally, start with the fetch of their page and
    leave the store and the clock alone. *)
Lemma scrapeCuevanaStream_frame env id w :
  exists l evs w',
    scrapeCuevanaStream env id w = (Normal l, w') /\
    extends w (EFetch ("https://cuevana3.me/" +:+ id) :: evs) w'.
Proof.
  rewrite scrapeCuevanaStream_unfold.
  pose proof (extends_emit w [] w (EFetch ("https://cuevana3.me/" +:+ id))
                (extends_refl w) eq_refl) as H1. simpl in H1.
  primary_stages env w; do 3 eexists; (split; [reflexivity|]);
    repeat (first [exact H1 | eapply (extends_emit _ (_ :: _)); [|reflexivity]]).
Qed.

Lemma scrapeFailoverStream_frame env id w :
  exists l evs w',
    scrapeFailoverStream env id w = (Normal l, w') /\
    extends w (EFetch ("https://pelisplushd.net/ver/" +:+ id) :: evs) w'.
Proof.
  rewrite scrapeFailoverStream_unfold.
  pose proof (extends_emit w [] w (EFetch ("https://pelisplushd.net/ver/" +:+ id))
                (extends_refl w) eq_refl) as H1. simpl in H1.
  failover_stages env w; do 3 eexists; (split; [reflexivity|]);
    repeat (first [exact H1 | eapply (extends_emit _ (_ :: _)); [|reflexivity]]).
Qed.

(* ================================================================= *)
(** ** Absolute URLs *)

Lemma starts_with_append p : forall s,
  starts_with p s = true -> exists t, s = p +:+ t.
Proof.
  induction p as [|a p IH]; intros s H.
  - now exists s.
  - destruct s as [|b s]; [discriminate|]. simpl in H.
    apply andb_prop in H as [Hab H]. apply Ascii.eqb_eq in Hab as <-.
    apply IH in H as (t & ->). now exists t.
Qed.

Lemma http_url_absolute u : http_url u = true -> absolute_url u = true.
Proof.
  unfold http_url. intros H. apply orb_prop in H as [H|H];
    apply starts_with_append in H as (t & ->); reflexivity.
Qed.

Lemma map_outcome_length {A B : Type} (f : A -> Outcome B) l : forall l',
  map_outcome f l = Normal l' -> length l' = length l.
Proof.
  induction l as [|x l IH]; intros l' H; simpl in H.
  - now injection H as <-.
  - destruct (f x); [|discriminate].
    destruct (map_outcome f l) eqn:Hl; [|discriminate].
    injection H as <-. simpl. f_equal. now apply IH.
Qed.

Lemma map_outcome_Forall2 {A B : Type} (f : A -> Outcome B) l : forall l',
  map_outcome f l = Normal l' -> Forall2 (fun x y => f x = Normal y) l l'.
Proof.
  induction l as [|x l IH]; intros l' H; simpl in H.
  - injection H as <-. constructor.
  - destruct (f x) eqn:Hx; [|discriminate].
    destruct (map_outcome f l) eqn:Hl; [|discriminate].
    injection H as <-. constructor; auto.
Qed.

Lemma quality_of_inv env base m q :
  quality_of env base m = Normal q ->
  fst q = group 1 m /\ URL_href env (group 2 m) base = Normal (snd q).
Proof.
  unfold quality_of. destruct (URL_href env (group 2 m) base); [|discriminate].
  intros H. injection H as <-. auto.
Qed.

Lemma qualities_titles env base ms qs :
  map_outcome (quality_of env base) ms = Normal qs ->
  map (fun q => title (variant_stream q)) qs = map (fun m => group 1 m +:+ "p") ms.
Proof.
  intros H. apply map_outcome_Forall2 in H.
  induction H as [|m q ms qs Hq _ IH]; [reflexivity|].
  cbn [map]. rewrite IH. apply quality_of_inv in Hq as [Hq _].
  unfold variant_stream. cbn [title]. now rewrite Hq.
Qed.

Lemma qualities_hrefs env base ms qs :
  map_outcome (quality_of env base) ms = Normal qs ->
  Forall2 (fun m x => URL_href env (group 2 m) base = Normal (url x))
          ms (map variant_stream qs).
Proof.
  intros H. apply map_outcome_Forall2 in H.
  induction H as [|m q ms qs Hq _ IH]; cbn [map]; constructor; [|exact IH].
  apply quality_of_inv in Hq as [_ Hq]. exact Hq.
Qed.

Lemma hrefs_absolute env base ms l :
  href_absolute env ->
  Forall2 (fun m x => URL_href env (group 2 m) base = Normal (url x)) ms l ->
  Forall (fun x => absolute_url (url x) = true) l.
Proof.
  intros Habs H. induction H as [|m x ms l Hx _ IH]; constructor; [|exact IH].
  exact (Habs _ _ _ Hx).
Qed.

(* ================================================================= *)
(** ** The resolvers *)


(** C10.  Every locator of the primary resolver is named Cuevana Stream;
    every locator of the failover resolver is named Failover Stream and
    titled Auto (Failover); so no returned list mixes the two names. *)
Theorem resolver_source_names (env : Env) (id : string) (w : World) :
  (exists l w', scrapeCuevanaStream env id w = (Normal l, w') /\
     Forall (fun x => name x = "Cuevana Stream") l) /\
  (exists l w', scrapeFailoverStream env id w = (Normal l, w') /\
     Forall (fun x => name x = "Failover Stream" /\ title x = "Auto (Failover)") l).
Proof.
  rewrite scrapeCuevanaStream_unfold, scrapeFailoverStream_unfold. split.
  - primary_stages env w; do 2 eexists; (split; [reflexivity|]);
      cbn [List.app];
      try (apply List.Forall_forall; intros x Hx;
           apply List.in_map_iff in Hx as (q' & <- & _); reflexivity);
      repeat constructor.
  - failover_stages env w; do 2 eexists; (split; [reflexivity|]);
      repeat constructor.
Qed.

Lemma primary_reference_failure env id w res iframeHtml m playlist e :
  http env (step w) ("https://cuevana3.me/" +:+ id) = Normal res ->
  truthy (frame_source env res) = true ->
  http env (S (step w)) (text_of (frame_source env res)) = Normal iframeHtml ->
  String_match master_re iframeHtml = Some m ->
  http env (S (S (step w))) (group 1 m) = Normal playlist ->
  map_outcome (quality_of env (group 1 m)) (exec_all variant_re playlist 0) = Throw e ->
  scrapeCuevanaStream env id w =
  (Normal [],
   emit (EWarn ("Primary scrape error: " +:+ message e))
     (emit (EFetch (group 1 m))
        (emit (EFetch (text_of (frame_source env res)))
           (emit (EFetch ("https://cuevana3.me/" +:+ id)) w)))).
Proof.
  unfold frame_source. intros Hpage Hsrc Hplayer Hm Hmaster Hqs.
  rewrite scrapeCuevanaStream_unfold.
  unfold scrapeCuevanaStream_try, bind, axios_get, throw, lift; cbv beta.
  rewrite Hpage, Hsrc. cbn [negb]. rewrite step_emit, Hplayer, Hm.
  rewrite (http_url_truthy _ (master_match_http _ _ Hm)).
  rewrite !step_emit, Hmaster, Hqs. reflexivity.
Qed.

(** C5, as amended.  Every locator has an absolute URL, given that the
    href of a constructed URL is absolute.  A list of the failover
    resolver that is not empty is the one locator whose URL is the master
    URL matched in the frame content, which starts with http:// or
    https://.  A list of the primary resolver that is not empty is either
    the Auto (Master) locator, whose URL is the matched master URL, when
    the manifest has no variant, or one locator per variant match, in
    order, the URL of each being the href of the reference of its match
    resolved against the matched master URL. *)
Theorem resolver_urls_absolute (env : Env) (id : string) (w : World) :
  href_absolute env ->
  (exists l w',
     scrapeCuevanaStream env id w = (Normal l, w') /\
     Forall (fun x => absolute_url (url x) = true) l /\
     (l = [] \/
      exists res iframeHtml m playlist,
        http env (step w) ("https://cuevana3.me/" +:+ id) = Normal res /\
        truthy (frame_source env res) = true /\
        http env (S (step w)) (text_of (frame_source env res)) = Normal iframeHtml /\
        String_match master_re iframeHtml = Some m /\
        http_url (group 1 m) = true /\
        http env (S (S (step w))) (group 1 m) = Normal playlist /\
        match exec_all variant_re playlist 0 with
        | [] => l = [MkStream "Auto (Master)" (group 1 m) "Cuevana Stream"]
        | ms =>
            Forall2 (fun m' x =>
                       URL_href env (group 2 m') (group 1 m) = Normal (url x))
                    ms l
        end)) /\
  (exists l w',
     scrapeFailoverStream env id w = (Normal l, w') /\
     Forall (fun x => absolute_url (url x) = true /\ http_url (url x) = true) l /\
     (l = [] \/
      exists res iframeHtml m,
        http env (step w) ("https://pelisplushd.net/ver/" +:+ id) = Normal res /\
        truthy (frame_source env res) = true /\
        http env (S (step w)) (text_of (frame_source env res)) = Normal iframeHtml /\
        String_match master_re iframeHtml = Some m /\
        l = [MkStream "Auto (Failover)" (group 1 m) "Failover Stream"])).
Proof.
  intros Habs.
  rewrite scrapeCuevanaStream_unfold, scrapeFailoverStream_unfold. split.
  - primary_stages env w; do 2 eexists; (split; [reflexivity|]); cbn [List.app];
      try (split; [constructor | now left]).
    + pose proof (master_match_http _ _ Hm) as Hu.
      split; [repeat constructor; cbn [url]; now apply http_url_absolute|].
      right. exists res, iframeHtml, m, playlist.
      repeat (split; [first [assumption | reflexivity]|]).
      apply map_outcome_length in Hqs.
      destruct (exec_all variant_re playlist 0); [reflexivity | discriminate].
    + pose proof (master_match_http _ _ Hm) as Hu.
      pose proof (qualities_hrefs _ _ _ _ Hqs) as Hrefs.
      split; [exact (hrefs_absolute _ _ _ _ Habs Hrefs)|].
      right. exists res, iframeHtml, m, playlist.
      repeat (split; [first [assumption | reflexivity]|]).
      apply map_outcome_length in Hqs.
      destruct (exec_all variant_re playlist 0); [discriminate | exact Hrefs].
  - failover_stages env w; do 2 eexists; (split; [reflexivity|]);
      try (split; [constructor | now left]).
    pose proof (master_match_http _ _ Hm) as Hu.
    split; [repeat constructor; cbn [url]; auto using http_url_absolute|].
    right. exists res, iframeHtml, m. auto.
Qed.

(** C2, as amended.  Once the master manifest has been fetched: when every
    reference matched by the variant pattern resolves against the master
    URL, n >= 1 matches give exactly n locators, the i-th titled with the
    height of the i-th match followed by p, and no match gives the single
    locator Auto (Master) for the master URL; when a reference does not
    resolve, the error is caught and the list is empty. *)
Theorem primary_quality_tiers (env : Env) (id : string) (w : World)
    (res iframeHtml playlist : string) (m : list string) :
  http env (step w) ("https://cuevana3.me/" +:+ id) = Normal res ->
  truthy (frame_source env res) = true ->
  http env (S (step w)) (text_of (frame_source env res)) = Normal iframeHtml ->
  String_match master_re iframeHtml = Some m ->
  http env (S (S (step w))) (group 1 m) = Normal playlist ->
  exists l w',
    scrapeCuevanaStream env id w = (Normal l, w') /\
    match map_outcome (quality_of env (group 1 m)) (exec_all variant_re playlist 0) with
    | Normal qs =>
        match exec_all variant_re playlist 0 with
        | [] => l = [MkStream "Auto (Master)" (group 1 m) "Cuevana Stream"]
        | ms =>
            length l = length ms /\
            map title l = map (fun m' => group 1 m' +:+ "p") ms /\
            map url l = map snd qs
        end
    | Throw _ => l = []
    end.
Proof.
  intros Hpage Hsrc Hplayer Hm Hmaster.
  destruct (map_outcome _ _) as [qs|e] eqn:Hqs.
  - rewrite (primary_success _ _ _ _ _ _ _ _ Hpage Hsrc Hplayer Hm Hmaster Hqs).
    do 2 eexists; split; [reflexivity|].
    pose proof (map_outcome_length _ _ _ Hqs) as Hlen.
    pose proof (qualities_titles _ _ _ _ Hqs) as Htitles.
    destruct (exec_all variant_re playlist 0) as [|m0 ms] eqn:Hms.
    + destruct qs; [reflexivity | discriminate].
    + destruct qs as [|q qs]; [discriminate|]. unfold tiers.
      rewrite length_map, List.map_map, List.map_map. auto.
  - rewrite (primary_reference_failure _ _ _ _ _ _ _ _ Hpage Hsrc Hplayer Hm Hmaster Hqs).
    eauto.
Qed.

(** C6, as amended.  Once a master manifest URL has been found in the
    frame content, the failover resolver returns exactly one locator; the
    primary resolver returns at least one locator when, in addition, the
    master manifest is fetched and its references resolve. *)
Theorem master_found_locators (env : Env) (id : string) (w : World)
    (res iframeHtml : string) (m : list string) :
  truthy (frame_source env res) = true ->
  http env (S (step w)) (text_of (frame_source env res)) = Normal iframeHtml ->
  String_match master_re iframeHtml = Some m ->
  (http env (step w) ("https://pelisplushd.net/ver/" +:+ id) = Normal res ->
   exists w',
     scrapeFailoverStream env id w =
     (Normal [MkStream "Auto (Failover)" (group 1 m) "Failover Stream"], w')) /\
  (http env (step w) ("https://cuevana3.me/" +:+ id) = Normal res ->
   forall playlist qs,
     http env (S (S (step w))) (group 1 m) = Normal playlist ->
     map_outcome (quality_of env (group 1 m)) (exec_all variant_re playlist 0)
       = Normal qs ->
     exists l w', scrapeCuevanaStream env id w = (Normal l, w') /\ l <> []).
Proof.
  intros Hsrc Hplayer Hm. split.
  - intros Hpage. rewrite (failover_success _ _ _ _ _ _ Hpage Hsrc Hplayer Hm). eauto.
  - intros Hpage playlist qs Hmaster Hqs.
    rewrite (primary_success _ _ _ _ _ _ _ _ Hpage Hsrc Hplayer Hm Hmaster Hqs).
    do 2 eexists; split; [reflexivity|]. destruct qs; discriminate.
Qed.

Lemma select_node_tag (n : Node) : Forall is_iframe (select_node "iframe" n).
Proof.
  revert n. fix IH 1. intros [t a cs|s]; simpl; [|constructor].
  apply Forall_app. split.
  - destruct (String.eqb_spec t "iframe"); repeat constructor. assumption.
  - induction cs as [|c cs IHcs]; simpl; [constructor|].
    apply Forall_app. split; [apply IH | apply IHcs].
Qed.

Lemma cheerio_select_tag (doc : list Node) :
  Forall is_iframe (cheerio_select "iframe" doc).
Proof.
  unfold cheerio_select. induction doc as [|n doc IH]; simpl; [constructor|].
  apply Forall_app. split; [apply select_node_tag | exact IH].
Qed.

(** C8, as amended.  The selection holds the iframe elements of the page;
    the extraction yields the src attribute of the first of them; it fails
    exactly when the page has no iframe element or the first one has no
    src attribute or an empty one; and a failed extraction makes either
    resolver return the empty list. *)
Theorem frame_source_extraction (env : Env) (page : string) :
  let sel := cheerio_select "iframe" (cheerio_load env page) in
  Forall is_iframe sel /\
  match sel with
  | Element _ attrs _ :: _ => frame_source env page = attr_lookup "src" attrs
  | _ => frame_source env page = None
  end /\
  (truthy (frame_source env page) = false <->
   sel = [] \/
   exists t attrs cs rest,
     sel = Element t attrs cs :: rest /\
     (attr_lookup "src" attrs = None \/ attr_lookup "src" attrs = Some "")) /\
  (forall id w,
     truthy (frame_source env page) = false ->
     (http env (step w) ("https://cuevana3.me/" +:+ id) = Normal page ->
      scrapeCuevanaStream env id w =
      (Normal [],
       emit (EWarn "Primary scrape error: Iframe not found")
         (emit (EFetch ("https://cuevana3.me/" +:+ id)) w))) /\
     (http env (step w) ("https://pelisplushd.net/ver/" +:+ id) = Normal page ->
      scrapeFailoverStream env id w =
      (Normal [],
       emit (EWarn "Failover scrape error: Iframe not found")
         (emit (EFetch ("https://pelisplushd.net/ver/" +:+ id)) w)))).
Proof.
  intros sel. pose proof (cheerio_select_tag (cheerio_load env page)) as Htag.
  fold sel in Htag. unfold frame_source. fold sel.
  split; [exact Htag|]. split; [|split].
  - destruct sel as [|[t a cs|s] rest]; reflexivity.
  - destruct sel as [|[t a cs|s] rest]; simpl.
    + split; auto.
    + destruct (attr_lookup "src" a) as [v|] eqn:Hv; simpl.
      * destruct (String.eqb_spec v ""); simpl; split; intros H.
        -- subst. right. exists t, a, cs, rest. rewrite Hv. auto.
        -- reflexivity.
        -- discriminate.
        -- destruct H as [H|(t' & a' & cs' & rest' & H & [H'|H'])]; try discriminate;
             injection H as -> -> -> ->; congruence.
      * split; auto. intros _. right. exists t, a, cs, rest. auto.
    + inversion Htag as [|? ? Hs _]. destruct Hs.
  - intros id w Hsrc. split; intros Hpage.
    + rewrite scrapeCuevanaStream_unfold.
      unfold scrapeCuevanaStream_try, bind, axios_get, throw; cbv beta.
      fold sel. rewrite Hpage. fold sel. rewrite Hsrc. reflexivity.
    + rewrite scrapeFailoverStream_unfold.
      unfold scrapeFailoverStream_try, bind, axios_get, throw; cbv beta.
      fold sel. rewrite Hpage. fold sel. rewrite Hsrc. reflexivity.
Qed.

(* ================================================================= *)
(** ** The stream handler *)

Lemma streamHandler_fault env id w e :
  redis_fault env (step w) = Some e ->
  streamHandler env id w = (Throw e, emit (EGet ("stream:" +:+ id)) w).
Proof.
  intros H. unfold streamHandler, function, bind, redis_get. now rewrite H.
Qed.

Lemma streamHandler_hit env id w :
  redis_fault env (step w) = None ->
  truthy (live w ("stream:" +:+ id)) = true ->
  streamHandler env id w =
  (JSON_parse env (text_of (live w ("stream:" +:+ id))),
   emit (EGet ("stream:" +:+ id)) w).
Proof.
  intros H Hhit. unfold streamHandler, function, bind, redis_get, lift.
  now rewrite H, Hhit.
Qed.

(** On a miss the handler runs the primary resolver, then the failover
    resolver if the first list is empty, then lines 95-96. *)
Lemma streamHandler_miss env id w :
  redis_fault env (step w) = None ->
  truthy (live w ("stream:" +:+ id)) = false ->
  exists l1 w1,
    scrapeCuevanaStream env id (emit (EGet ("stream:" +:+ id)) w) = (Normal l1, w1) /\
    match l1 with
    | _ :: _ =>
        streamHandler env id w =
        (Normal l1, after_set env ("stream:" +:+ id) l1 w1)
    | [] =>
        exists l2 w2,
          scrapeFailoverStream env id
            (emit (EWarn ("Primary site failed, trying failover for " +:+ id)) w1)
          = (Normal l2, w2) /\
          streamHandler env id w =
          (Normal l2, after_cache env ("stream:" +:+ id) l2 w2)
    end.
Proof.
  intros H Hmiss.
  destruct (scrapeCuevanaStream_frame env id (emit (EGet ("stream:" +:+ id)) w))
    as (l1 & evs1 & w1 & H1 & _).
  exists l1, w1. split; [exact H1|].
  unfold streamHandler, function, bind, redis_get. rewrite H, Hmiss.
  unfold streamHandler_resolve, streamHandler_try, bind, try_catch, call,
    set_streams, get_streams, ret, console_warn, console_error, redis_set.
  rewrite H1. change (6 * 3600)%N with 21600%N.
  destruct l1 as [|x l1].
  - destruct (scrapeFailoverStream_frame env id
        (emit (EWarn ("Primary site failed, trying failover for " +:+ id)) w1))
      as (l2 & evs2 & w2 & H2 & _).
    exists l2, w2. split; [exact H2|]. rewrite H2.
    destruct l2 as [|y l2]; [reflexivity|].
    unfold after_cache, after_set. destruct (redis_fault env (step w2)); reflexivity.
  - unfold after_set. destruct (redis_fault env (step w1)); reflexivity.
Qed.

Lemma after_set_log env key l w :
  exists tail,
    log (after_set env key l w) = log w ++ ESet key (JSON_stringify env l) 21600 :: tail /\
    forallb (fun ev => negb (is_fetch ev)) tail = true /\
    forallb (fun ev => negb (is_set ev)) tail = true /\
    now (after_set env key l w) = now w.
Proof.
  unfold after_set. destruct (redis_fault env (step w)) as [e|].
  - exists [EError ("Stream scrape failed: " +:+ message e)]. simpl.
    rewrite <- app_assoc. auto.
  - exists []. auto.
Qed.

Lemma new_events_app w w' evs : log w' = log w ++ evs -> new_events w w' = evs.
Proof.
  intros Hl. unfold new_events, step. rewrite Hl.
  rewrite skipn_app, skipn_all, Nat.sub_diag. reflexivity.
Qed.

(** C1.  On a cache miss the handler first runs the primary resolver.  If
    its list is non-empty the handler returns that list; the next effect
    after the resolver is the cache write and no fetch follows, so the
    failover resolver, which starts with the fetch of its page, is not
    run.  If the list is empty the handler warns, runs the failover
    resolver and returns its list, whatever it is.  The returned list is
    the list of one resolver, never a merge. *)
Theorem failover_short_circuit (env : Env) (id : string) (w : World) :
  redis_fault env (step w) = None ->
  truthy (live w ("stream:" +:+ id)) = false ->
  exists l1 w1,
    scrapeCuevanaStream env id (emit (EGet ("stream:" +:+ id)) w) = (Normal l1, w1) /\
    match l1 with
    | _ :: _ =>
        exists w' tail,
          streamHandler env id w = (Normal l1, w') /\
          new_events w1 w' =
            ESet ("stream:" +:+ id) (JSON_stringify env l1) 21600 :: tail /\
          forallb (fun ev => negb (is_fetch ev)) tail = true
    | [] =>
        exists l2 w2 w' evs,
          scrapeFailoverStream env id
            (emit (EWarn ("Primary site failed, trying failover for " +:+ id)) w1)
          = (Normal l2, w2) /\
          streamHandler env id w = (Normal l2, w') /\
          new_events w1 w' =
            EWarn ("Primary site failed, trying failover for " +:+ id) ::
            EFetch ("https://pelisplushd.net/ver/" +:+ id) :: evs
    end.
Proof.
  intros H Hmiss.
  destruct (streamHandler_miss env id w H Hmiss) as (l1 & w1 & H1 & Hh).
  exists l1, w1. split; [exact H1|].
  destruct l1 as [|x l1].
  - destruct Hh as (l2 & w2 & H2 & Hh).
    destruct (scrapeFailoverStream_frame env id
        (emit (EWarn ("Primary site failed, trying failover for " +:+ id)) w1))
      as (l2' & evs2 & w2' & H2' & (_ & _ & Hlog & _)).
    rewrite H2 in H2'. injection H2' as <- <-.
    simpl in Hlog. rewrite <- app_assoc in Hlog. simpl in Hlog.
    destruct l2 as [|y l2].
    + exists [], w2, w2, evs2. repeat split; auto. now apply new_events_app.
    + destruct (after_set_log env ("stream:" +:+ id) (y :: l2) w2)
        as (tail & Hl & _).
      cbn [after_cache] in Hh.
      eexists _, w2, _, _. split; [exact H2|]. split; [exact Hh|].
      apply new_events_app. rewrite Hl, Hlog, <- app_assoc. simpl.
      reflexivity.
  - destruct (after_set_log env ("stream:" +:+ id) (x :: l1) w1)
      as (tail & Hl & Hf & _).
    exists (after_set env ("stream:" +:+ id) (x :: l1) w1), tail.
    split; [exact Hh|]. split; [exact (new_events_app _ _ _ Hl) | exact Hf].
Qed.

Lemma extends_trans a e1 b e2 c :
  extends a e1 b -> extends b e2 c -> extends a (e1 ++ e2) c.
Proof.
  intros (Hs1 & Hn1 & Hl1 & Hf1) (Hs2 & Hn2 & Hl2 & Hf2). unfold extends.
  rewrite Hs2, Hn2, Hl2, Hl1, <- app_assoc, forallb_app, Hf1, Hf2. auto.
Qed.

(** On a miss: the world [wr] when resolution ends differs from the world
    at the call by the read, the fetch of the primary page and further
    events that are no cache command; the handler returns the resolved
    list after lines 95-96. *)
Lemma streamHandler_miss_trace env id w :
  redis_fault env (step w) = None ->
  truthy (live w ("stream:" +:+ id)) = false ->
  exists l wr evs,
    extends w (EGet ("stream:" +:+ id) :: EFetch ("https://cuevana3.me/" +:+ id) :: evs) wr /\
    streamHandler env id w = (Normal l, after_cache env ("stream:" +:+ id) l wr).
Proof.
  intros H Hmiss.
  destruct (streamHandler_miss env id w H Hmiss) as (l1 & w1 & H1 & Hh).
  destruct (scrapeCuevanaStream_frame env id (emit (EGet ("stream:" +:+ id)) w))
    as (l1' & evs1 & w1' & H1' & Hext1).
  rewrite H1 in H1'. injection H1' as <- <-.
  pose proof (extends_emit w [] w (EGet ("stream:" +:+ id)) (extends_refl w) eq_refl)
    as Hget.
  pose proof (extends_trans _ _ _ _ _ Hget Hext1) as Hw1. simpl in Hw1.
  destruct l1 as [|x l1].
  - destruct Hh as (l2 & w2 & H2 & Hh).
    destruct (scrapeFailoverStream_frame env id
        (emit (EWarn ("Primary site failed, trying failover for " +:+ id)) w1))
      as (l2' & evs2 & w2' & H2' & Hext2).
    rewrite H2 in H2'. injection H2' as <- <-.
    pose proof (extends_emit _ _ _
      (EWarn ("Primary site failed, trying failover for " +:+ id)) Hw1 eq_refl) as Hwarn.
    pose proof (extends_trans _ _ _ _ _ Hwarn Hext2) as Hw2. simpl in Hw2.
    eexists l2, w2, _. split; [exact Hw2 | exact Hh].
  - exists (x :: l1), w1, evs1. split; [exact Hw1 | exact Hh].
Qed.

Lemma after_cache_log env key l w :
  exists tail,
    log (after_cache env key l w) = log w ++ tail /\
    now (after_cache env key l w) = now w /\
    (forall k v t, In (ESet k v t) tail ->
       l <> [] /\ k = key /\ v = JSON_stringify env l /\ t = 21600%N) /\
    (l = [] -> after_cache env key l w = w).
Proof.
  destruct l as [|x l].
  - exists []. simpl. rewrite app_nil_r.
    split; [reflexivity|]. split; [reflexivity|]. split; [|reflexivity].
    intros k v t [].
  - destruct (after_set_log env key (x :: l) w) as (tail & Hl & _ & Hns & Hn).
    exists (ESet key (JSON_stringify env (x :: l)) 21600 :: tail). cbn [after_cache].
    split; [exact Hl|]. split; [exact Hn|]. split; [|discriminate].
    intros k v t [H|H].
    + injection H as <- <- <-. repeat split. discriminate.
    + rewrite forallb_forall in Hns. apply Hns in H. discriminate.
Qed.

Lemma live_later w w2 key :
  truthy (live w key) = false ->
  store w2 = store w -> (now w <= now w2)%N ->
  truthy (live w2 key) = false.
Proof.
  unfold live. intros Hmiss -> Hle.
  destruct (store w !! key) as [[v ex]|]; [|reflexivity].
  destruct (N.ltb_spec (now w) ex) as [Hlt|Hge];
    destruct (N.ltb_spec (now w2) ex); auto; lia.
Qed.

(** C3, as amended.  A call of the handler writes to the cache only under
    the key of its id and only a non-empty list it returns; when it
    returns the empty list the store is unchanged; and after a miss that
    produced the empty list a later call for the same id, when its cache
    read succeeds, misses again and fetches the primary page, and, when
    its cache read fails, throws the error of the read and resolves
    nothing. *)
Theorem empty_result_not_cached (env : Env) (id : string) (w : World)
    (o : Outcome (list Stream)) (w' : World) :
  streamHandler env id w = (o, w') ->
  (forall k v t, In (ESet k v t) (new_events w w') ->
     exists l, o = Normal l /\ l <> [] /\ k = "stream:" +:+ id /\
               v = JSON_stringify env l /\ t = 21600%N) /\
  (o = Normal [] -> store w' = store w) /\
  (o = Normal [] -> truthy (live w ("stream:" +:+ id)) = false ->
   forall d,
     match redis_fault env (step w') with
     | None =>
         exists o2 w2 evs,
           streamHandler env id (elapse d w') = (o2, w2) /\
           new_events (elapse d w') w2 =
           EGet ("stream:" +:+ id) :: EFetch ("https://cuevana3.me/" +:+ id) :: evs
     | Some e =>
         streamHandler env id (elapse d w') =
         (Throw e, emit (EGet ("stream:" +:+ id)) (elapse d w'))
     end).
Proof.
  intros Hrun.
  destruct (redis_fault env (step w)) as [e|] eqn:Hf.
  { rewrite (streamHandler_fault _ _ _ _ Hf) in Hrun. apply pair_equal_spec in Hrun as [<- <-].
    rewrite (new_events_app w (emit (EGet ("stream:" +:+ id)) w)
               [EGet ("stream:" +:+ id)] eq_refl).
    repeat split; try discriminate. intros k v t [H|[]]. discriminate. }
  destruct (truthy (live w ("stream:" +:+ id))) eqn:Hlive.
  { rewrite (streamHandler_hit _ _ _ Hf Hlive) in Hrun. apply pair_equal_spec in Hrun as [<- <-].
    rewrite (new_events_app w (emit (EGet ("stream:" +:+ id)) w)
               [EGet ("stream:" +:+ id)] eq_refl).
    repeat split; try discriminate. intros k v t [H|[]]. discriminate. }
  destruct (streamHandler_miss_trace env id w Hf Hlive)
    as (l & wr & evs & (Hs & Hn & Hl & Hns) & Hh).
  rewrite Hh in Hrun. apply pair_equal_spec in Hrun as [<- <-].
  destruct (after_cache_log env ("stream:" +:+ id) l wr) as (tail & Hlt & Hnt & Hset & Hnil).
  split; [|split].
  - intros k v t Hin. rewrite (new_events_app w _ _
      (eq_trans Hlt (eq_trans (f_equal (fun x => x ++ tail) Hl)
                              (eq_sym (app_assoc _ _ _))))) in Hin.
    apply in_app_or in Hin as [Hin|Hin].
    + rewrite forallb_forall in Hns. apply Hns in Hin. discriminate.
    + exists l. apply Hset in Hin as (? & ? & ? & ?). auto.
  - intros Ho. injection Ho as ->. now rewrite Hnil.
  - intros Ho _ d. injection Ho as ->. rewrite (Hnil eq_refl) in *.
    destruct (redis_fault env (step wr)) as [e|] eqn:Hf2;
      [exact (streamHandler_fault env id (elapse d wr) e Hf2)|].
    assert (Hmiss2 : truthy (live (elapse d wr) ("stream:" +:+ id)) = false).
    { apply (live_later w); auto. simpl. rewrite Hn. lia. }
    destruct (streamHandler_miss_trace env id (elapse d wr) Hf2 Hmiss2)
      as (l2 & wr2 & evs2 & (_ & _ & Hl2 & _) & Hh2).
    destruct (after_cache_log env ("stream:" +:+ id) l2 wr2) as (tail2 & Hlt2 & _).
    eexists _, _, (evs2 ++ tail2). split; [exact Hh2|].
    apply new_events_app. rewrite Hlt2, Hl2, <- app_assoc. reflexivity.
Qed.

(** C7, as amended.  A failing cache read is not a miss: the handler
    throws the error of the read to its caller and resolves nothing.
    After a read that succeeds and misses, the handler always returns a
    list: with [wr] the world when resolution ends (the store untouched),
    an empty list ends the call there; the write of a non-empty list
    either stores it for six hours or fails, and then the failure is
    logged and the list is returned all the same. *)
Theorem cache_faults (env : Env) (id : string) (w : World) :
  (forall e, redis_fault env (step w) = Some e ->
     streamHandler env id w = (Throw e, emit (EGet ("stream:" +:+ id)) w)) /\
  (redis_fault env (step w) = None ->
   truthy (live w ("stream:" +:+ id)) = false ->
   exists l wr evs w',
     streamHandler env id w = (Normal l, w') /\
     extends w evs wr /\
     match l with
     | [] => w' = wr
     | _ :: _ =>
         match redis_fault env (step wr) with
         | Some e =>
             w' = emit (EError ("Stream scrape failed: " +:+ message e))
                    (emit (ESet ("stream:" +:+ id) (JSON_stringify env l) 21600) wr)
         | None =>
             store w' =
               <[("stream:" +:+ id) := (JSON_stringify env l, (now w + 21600)%N)]>
                 (store w) /\
             log w' = log wr ++ [ESet ("stream:" +:+ id) (JSON_stringify env l) 21600]
         end
     end).
Proof.
  split.
  - intros e. apply streamHandler_fault.
  - intros Hf Hmiss.
    destruct (streamHandler_miss_trace env id w Hf Hmiss)
      as (l & wr & evs & Hext & Hh).
    eexists l, wr, _, (after_cache env ("stream:" +:+ id) l wr).
    split; [exact Hh|]. split; [exact Hext|].
    destruct Hext as (Hs & Hn & _ & _).
    destruct l as [|x l]; [reflexivity|].
    unfold after_cache, after_set.
    destruct (redis_fault env (step wr)); [reflexivity|].
    cbn [store log]. rewrite Hs, Hn. auto.
Qed.

(** C9, as amended.  When a call that missed has resolved a non-empty
    list and stored it, and the codec reads back what it writes, any later
    call for the same id that finds the entry in place before its six
    hours are over and whose cache read succeeds returns a list equal to
    it, with the cache read as its only effect: no resolver runs.  A
    later call whose cache read fails throws the error of the read, and
    no resolver runs either. *)
Theorem cached_list_is_returned (env : Env) (id : string) (w w1 w2 : World)
    (L : list Stream) :
  json_roundtrip env ->
  redis_fault env (step w) = None ->
  truthy (live w ("stream:" +:+ id)) = false ->
  streamHandler env id w = (Normal L, w1) ->
  L <> [] ->
  (forall msg, ~ In (EError msg) (new_events w w1)) ->
  store w2 !! ("stream:" +:+ id) = store w1 !! ("stream:" +:+ id) ->
  (now w2 < now w + 21600)%N ->
  (redis_fault env (step w2) = None ->
   streamHandler env id w2 = (Normal L, emit (EGet ("stream:" +:+ id)) w2)) /\
  (forall e, redis_fault env (step w2) = Some e ->
   streamHandler env id w2 = (Throw e, emit (EGet ("stream:" +:+ id)) w2)).
Proof.
  intros Hjson Hf Hmiss Hrun HL Hok Hstore Hnow.
  split; [|intros e He; now apply streamHandler_fault].
  intros Hf2.
  destruct (streamHandler_miss_trace env id w Hf Hmiss)
    as (l & wr & evs & (Hs & Hn & Hl & Hns) & Hh).
  rewrite Hh in Hrun. apply pair_equal_spec in Hrun as [Hrun <-].
  injection Hrun as ->.
  destruct L as [|x L]; [congruence|]. cbn [after_cache] in *.
  unfold after_set in *. destruct (redis_fault env (step wr)) as [e|] eqn:Hw.
  { exfalso. apply (Hok ("Stream scrape failed: " +:+ message e)).
    erewrite new_events_app.
    2:{ simpl. rewrite Hl, <- !app_assoc. reflexivity. }
    apply in_or_app. right. simpl. auto. }
  cbn [store] in Hstore. rewrite lookup_insert_eq in Hstore.
  assert (Hlive : live w2 ("stream:" +:+ id) = Some (JSON_stringify env (x :: L))).
  { unfold live. rewrite Hstore.
    destruct (N.ltb_spec (now w2) (now wr + 21600)); [reflexivity | lia]. }
  destruct (Hjson (x :: L)) as [Hparse Hne].
  rewrite streamHandler_hit; auto.
  - rewrite Hlive. simpl. now rewrite Hparse.
  - rewrite Hlive. simpl. now destruct (String.eqb_spec (JSON_stringify env (x :: L)) "").
Qed.

(* ================================================================= *)
(** ** The codec reads back what it writes *)

Lemma append_nil_r (s : string) : s +:+ "" = s.
Proof. induction s as [|c s IH]; simpl; [reflexivity | now rewrite IH]. Qed.

Lemma lex_run_app st s1 : forall s2,
  Json.lex_run st (s1 +:+ s2) =
  match Json.lex_run st s1 with
  | Some st' => Json.lex_run st' s2
  | None => None
  end.
Proof.
  revert st. induction s1 as [|c s1 IH]; intros st s2; simpl; [reflexivity|].
  destruct (Json.lex_step st c); [apply IH | reflexivity].
Qed.

Lemma lex_escape_char c acc toks :
  Json.lex_run (Json.InStr acc, toks) (Json.escape_char c) =
  Some (Json.InStr (c :: acc), toks).
Proof.
  destruct c as [[] [] [] [] [] [] [] []]; reflexivity.
Qed.

Lemma lex_escape s : forall acc toks,
  Json.lex_run (Json.InStr acc, toks) (Json.escape s) =
  Some (Json.InStr (push_chars s acc), toks).
Proof.
  induction s as [|c s IH]; intros acc toks; simpl; [reflexivity|].
  rewrite lex_run_app, lex_escape_char. apply IH.
Qed.

Lemma string_of_rev_push s : forall acc tail,
  Json.string_of_rev (push_chars s acc) tail = Json.string_of_rev acc (s +:+ tail).
Proof.
  induction s as [|c s IH]; intros acc tail; simpl; [reflexivity|].
  now rewrite IH.
Qed.

Lemma lex_quote s toks :
  Json.lex_run (Json.Out, toks) (Json.quote s) =
  Some (Json.Out, Json.TString s :: toks).
Proof.
  unfold Json.quote. cbn [Json.lex_run]. change (Json.lex_step (Json.Out, toks) Json.dq)
    with (Some (Json.InStr [], toks)). cbv iota.
  rewrite lex_run_app, lex_escape. cbn [Json.lex_run].
  change (Json.lex_step (Json.InStr (push_chars s []), toks) Json.dq)
    with (Some (Json.Out, Json.TString (Json.string_of_rev (push_chars s []) "") :: toks)).
  cbv iota. rewrite string_of_rev_push. cbn [Json.string_of_rev].
  now rewrite append_nil_r.
Qed.

Lemma lex_member k v toks :
  Json.lex_run (Json.Out, toks) (Json.member k v) =
  Some (Json.Out, Json.TString v :: Json.TColon :: Json.TString k :: toks).
Proof.
  unfold Json.member. rewrite lex_run_app, lex_quote.
  change (":" +:+ Json.quote v) with (String ":" (Json.quote v)).
  cbn [Json.lex_run]. change (Json.lex_step (Json.Out, Json.TString k :: toks) ":")
    with (Some (Json.Out, Json.TColon :: Json.TString k :: toks)).
  cbv iota. apply lex_quote.
Qed.

Lemma lex_stream x toks :
  Json.lex_run (Json.Out, toks) (Json.stringify_stream x) =
  Some (Json.Out, rev (stream_tokens x) ++ toks).
Proof.
  unfold Json.stringify_stream.
  change ("{" +:+ ?s) with (String "{" s).
  cbn [Json.lex_run].
  change (Json.lex_step (Json.Out, toks) "{") with (Some (Json.Out, Json.TLBrace :: toks)).
  cbv iota. rewrite lex_run_app, lex_member.
  change ("," +:+ ?s) with (String "," s). cbn [Json.lex_run].
  match goal with |- context [Json.lex_step (Json.Out, ?t) ","] =>
    change (Json.lex_step (Json.Out, t) ",") with (Some (Json.Out, Json.TComma :: t)) end.
  cbv iota. rewrite lex_run_app, lex_member.
  change ("," +:+ ?s) with (String "," s). cbn [Json.lex_run].
  match goal with |- context [Json.lex_step (Json.Out, ?t) ","] =>
    change (Json.lex_step (Json.Out, t) ",") with (Some (Json.Out, Json.TComma :: t)) end.
  cbv iota. rewrite lex_run_app, lex_member. reflexivity.
Qed.

Lemma lex_items l : forall toks,
  Json.lex_run (Json.Out, toks) (Json.stringify_items l) =
  Some (Json.Out, rev (items_tokens l) ++ toks).
Proof.
  induction l as [|x l IH]; intros toks; [reflexivity|].
  destruct l as [|y l].
  - apply lex_stream.
  - change (Json.stringify_items (x :: y :: l))
      with (Json.stringify_stream x +:+ String "," (Json.stringify_items (y :: l))).
    rewrite lex_run_app, lex_stream. cbn [Json.lex_run].
    match goal with |- context [Json.lex_step (Json.Out, ?t) ","] =>
      change (Json.lex_step (Json.Out, t) ",") with (Some (Json.Out, Json.TComma :: t)) end.
    cbv iota. rewrite IH.
    change (items_tokens (x :: y :: l))
      with (stream_tokens x ++ Json.TComma :: items_tokens (y :: l)).
    rewrite rev_app_distr. cbn [rev]. rewrite <- !app_assoc. reflexivity.
Qed.

Lemma lex_stringify l :
  Json.lex (Json.stringify l) =
  Some (Json.TLBracket :: items_tokens l ++ [Json.TRBracket]).
Proof.
  unfold Json.lex, Json.stringify.
  change ("[" +:+ ?s) with (String "[" s). cbn [Json.lex_run].
  change (Json.lex_step (Json.Out, []) "[") with (Some (Json.Out, [Json.TLBracket])).
  cbv iota. rewrite lex_run_app, lex_items. cbn [Json.lex_run].
  match goal with |- context [Json.lex_step (Json.Out, ?t) "]"] =>
    change (Json.lex_step (Json.Out, t) "]") with (Some (Json.Out, Json.TRBracket :: t)) end.
  cbv iota. cbn [rev]. rewrite rev_app_distr, rev_involutive. reflexivity.
Qed.

Lemma parse_items_tokens x l :
  Json.parse_items (items_tokens (x :: l) ++ [Json.TRBracket]) = Some (x :: l).
Proof.
  revert x. induction l as [|y l IH]; intros [t u n].
  - reflexivity.
  - change (items_tokens (MkStream t u n :: y :: l))
      with (stream_tokens (MkStream t u n) ++ Json.TComma :: items_tokens (y :: l)).
    rewrite <- app_assoc. cbn [stream_tokens List.app title url name Json.parse_items].
    change (String.eqb "title" "title" && String.eqb "url" "url" && String.eqb "name" "name")
      with true. cbv iota.
    change (Json.TComma :: items_tokens (y :: l) ++ [Json.TRBracket])
      with (Json.TComma :: (items_tokens (y :: l) ++ [Json.TRBracket])).
    now rewrite IH.
Qed.

Lemma json_parse_stringify l : Json.parse (Json.stringify l) = Normal l.
Proof.
  unfold Json.parse. rewrite lex_stringify.
  destruct l as [|x l]; [reflexivity|].
  unfold Json.parse_tokens.
  pose proof (parse_items_tokens x l) as H.
  destruct (items_tokens (x :: l) ++ [Json.TRBracket]) as [|tok toks] eqn:Ht.
  - discriminate.
  - destruct tok; now rewrite H.
Qed.

Lemma sample_json_roundtrip pages faults : json_roundtrip (sample_env pages faults).
Proof.
  intros l. split; [apply json_parse_stringify | discriminate].
Qed.

Lemma sample_href_absolute pages faults : href_absolute (sample_env pages faults).
Proof.
  intros ref base h. simpl. unfold sample_URL_href.
  repeat match goal with |- context [if ?b then _ else _] => destruct b end;
    intros H; try discriminate; injection H as <-; reflexivity.
Qed.

(* ================================================================= *)
(** ** The properties on the example environment *)

Example two_variants_titles :
  fst (scrapeCuevanaStream env_two_variants "movie-42" world0) =
  Normal [MkStream "720p" "https://example.com/a/720p.m3u8" "Cuevana Stream";
          MkStream "360p" "https://example.com/a/360p.m3u8" "Cuevana Stream"].
Proof. reflexivity. Qed.

Example no_variant_auto_master :
  fst (scrapeCuevanaStream env_single "movie-42" world0) =
  Normal [MkStream "Auto (Master)" master_url "Cuevana Stream"].
Proof. reflexivity. Qed.

Example end_to_end_failover :
  let r := streamHandler env_failover "movie-42" world0 in
  fst r = Normal [failover_stream] /\
  store (snd r) !! "stream:movie-42" = Some (Json.stringify [failover_stream], 21600%N) /\
  log (snd r) =
    [EGet "stream:movie-42";
     EFetch "https://cuevana3.me/movie-42";
     EWarn "Primary scrape error: Network Error";
     EWarn "Primary site failed, trying failover for movie-42";
     EFetch "https://pelisplushd.net/ver/movie-42";
     EFetch player_url;
     ESet "stream:movie-42" (Json.stringify [failover_stream]) 21600].
Proof. repeat split; vm_compute; reflexivity. Qed.

Lemma failover_short_circuit_witness :
  exists l1 w1,
    scrapeCuevanaStream env_both "movie-42" (emit (EGet "stream:movie-42") world0)
    = (Normal l1, w1) /\
    l1 <> [] /\
    exists w' tail,
      streamHandler env_both "movie-42" world0 = (Normal l1, w') /\
      new_events w1 w' =
        ESet "stream:movie-42" (JSON_stringify env_both l1) 21600 :: tail /\
      forallb (fun ev => negb (is_fetch ev)) tail = true.
Proof.
  destruct (failover_short_circuit env_both "movie-42" world0 eq_refl eq_refl)
    as (l1 & w1 & H1 & H).
  exists l1, w1. split; [exact H1|].
  assert (Hl : l1 <> []).
  { intros ->. vm_compute in H1. discriminate H1. }
  split; [exact Hl|]. destruct l1; [now destruct Hl | exact H].
Defined.


Lemma primary_quality_tiers_witness :
  exists l w',
    scrapeCuevanaStream env_two_variants "movie-42" world0 = (Normal l, w') /\
    length l = 2 /\
    map title l = ["720p"; "360p"] /\
    map url l = ["https://example.com/a/720p.m3u8"; "https://example.com/a/360p.m3u8"].
Proof.
  exact (primary_quality_tiers env_two_variants "movie-42" world0
           page_with_player player_page sample_master_text [master_url]
           eq_refl eq_refl eq_refl eq_refl eq_refl).
Defined.

(** C2 as stated fails: the master manifest is fetched and the variant
    pattern matches once, but the matched reference is no URL, so the
    resolver returns no locator. *)
Lemma primary_quality_tiers_counterexample :
  http env_bad_host 2 master_url = Normal master_bad_host /\
  exec_all variant_re master_bad_host 0 = [["720"; "http://bad host/v.m3u8"]] /\
  URL_href env_bad_host "http://bad host/v.m3u8" master_url = Throw (MkError "Invalid URL") /\
  scrapeCuevanaStream env_bad_host "movie-42" world0 =
  (Normal [],
   emit (EWarn "Primary scrape error: Invalid URL")
     (emit (EFetch master_url)
        (emit (EFetch player_url)
           (emit (EFetch "https://cuevana3.me/movie-42") world0)))).
Proof. repeat split; reflexivity. Qed.

Lemma resolver_urls_absolute_witness :
  fst (scrapeCuevanaStream env_both "movie-42" world0) =
    Normal [MkStream "720p" "https://example.com/a/720p.m3u8" "Cuevana Stream";
            MkStream "360p" "https://example.com/a/360p.m3u8" "Cuevana Stream"] /\
  fst (scrapeFailoverStream env_both "movie-42" world0) = Normal [failover_stream] /\
  (exists l w',
     scrapeCuevanaStream env_both "movie-42" world0 = (Normal l, w') /\
     Forall (fun x => absolute_url (url x) = true) l /\
     (l = [] \/
      exists res iframeHtml m playlist,
        http env_both (step world0) ("https://cuevana3.me/" +:+ "movie-42") = Normal res /\
        truthy (frame_source env_both res) = true /\
        http env_both (S (step world0)) (text_of (frame_source env_both res))
          = Normal iframeHtml /\
        String_match master_re iframeHtml = Some m /\
        http_url (group 1 m) = true /\
        http env_both (S (S (step world0))) (group 1 m) = Normal playlist /\
        match exec_all variant_re playlist 0 with
        | [] => l = [MkStream "Auto (Master)" (group 1 m) "Cuevana Stream"]
        | ms =>
            Forall2 (fun m' x =>
                       URL_href env_both (group 2 m') (group 1 m) = Normal (url x))
                    ms l
        end)) /\
  (exists l w',
     scrapeFailoverStream env_both "movie-42" world0 = (Normal l, w') /\
     Forall (fun x => absolute_url (url x) = true /\ http_url (url x) = true) l /\
     (l = [] \/
      exists res iframeHtml m,
        http env_both (step world0) ("https://pelisplushd.net/ver/" +:+ "movie-42")
          = Normal res /\
        truthy (frame_source env_both res) = true /\
        http env_both (S (step world0)) (text_of (frame_source env_both res))
          = Normal iframeHtml /\
        String_match master_re iframeHtml = Some m /\
        l = [MkStream "Auto (Failover)" (group 1 m) "Failover Stream"])).
Proof.
  split; [reflexivity|]. split; [reflexivity|].
  exact (resolver_urls_absolute env_both "movie-42" world0
           (sample_href_absolute _ _)).
Defined.

(** C5 as stated fails: a variant reference that is itself an absolute URL
    of another scheme keeps its scheme. *)
Lemma resolver_urls_counterexample :
  scrapeCuevanaStream env_other_scheme "movie-42" world0 =
  (Normal [MkStream "720p" "ftp://media.example.org/v.m3u8" "Cuevana Stream"],
   emit (EFetch master_url)
     (emit (EFetch player_url)
        (emit (EFetch "https://cuevana3.me/movie-42") world0))) /\
  http_url "ftp://media.example.org/v.m3u8" = false.
Proof. split; reflexivity. Qed.

Lemma master_found_locators_witness :
  (exists w',
     scrapeFailoverStream env_both "movie-42" world0 = (Normal [failover_stream], w')) /\
  (exists l w', scrapeCuevanaStream env_both "movie-42" world0 = (Normal l, w') /\ l <> []).
Proof.
  destruct (master_found_locators env_both "movie-42" world0
              page_with_player player_page [master_url] eq_refl eq_refl eq_refl)
    as (Hf & Hp).
  split.
  - exact (Hf eq_refl).
  - exact (Hp eq_refl sample_master_text
             [("720", "https://example.com/a/720p.m3u8");
              ("360", "https://example.com/a/360p.m3u8")] eq_refl eq_refl).
Defined.

(** C6 as stated fails: the master manifest URL is found in the frame
    content, the fetch of the master manifest fails, and the primary
    resolver returns the empty list. *)
Lemma master_found_counterexample :
  http env_master_down 0 "https://cuevana3.me/movie-42" = Normal page_with_player /\
  frame_source env_master_down page_with_player = Some player_url /\
  http env_master_down 1 player_url = Normal player_page /\
  String_match master_re player_page = Some [master_url] /\
  http env_master_down 2 master_url = Throw (MkError "Network Error") /\
  fst (scrapeCuevanaStream env_master_down "movie-42" world0) = Normal [].
Proof. repeat split; reflexivity. Qed.

Lemma frame_source_extraction_witness :
  scrapeCuevanaStream env_frame_without_src "movie-42" world0 =
  (Normal [],
   emit (EWarn "Primary scrape error: Iframe not found")
     (emit (EFetch "https://cuevana3.me/movie-42") world0)).
Proof.
  destruct (frame_source_extraction env_frame_without_src page_frame_without_src)
    as (_ & _ & _ & H).
  destruct (H "movie-42" world0 eq_refl) as (Hp & _).
  exact (Hp eq_refl).
Defined.

(** C8 as stated fails: the page has an iframe element, which has no src
    attribute, and the extraction fails. *)
Lemma frame_source_counterexample :
  cheerio_select "iframe" doc_frame_without_src = [Element "iframe" [] []] /\
  truthy (cheerio_attr "src" (cheerio_select "iframe" doc_frame_without_src)) = false /\
  cheerio_load env_frame_without_src page_frame_without_src = doc_frame_without_src /\
  fst (scrapeCuevanaStream env_frame_without_src "movie-42" world0) = Normal [].
Proof. repeat split; reflexivity. Qed.

Lemma empty_result_not_cached_witness :
  let r := streamHandler env_offline "movie-42" world0 in
  fst r = Normal [] /\
  store (snd r) = store world0 /\
  exists o2 w2 evs,
    streamHandler env_offline "movie-42" (elapse 60 (snd r)) = (o2, w2) /\
    new_events (elapse 60 (snd r)) w2 =
    EGet "stream:movie-42" :: EFetch "https://cuevana3.me/movie-42" :: evs.
Proof.
  intros r.
  destruct (empty_result_not_cached env_offline "movie-42" world0 (fst r) (snd r)
              eq_refl) as (_ & H2 & H3).
  split; [reflexivity|]. split.
  - exact (H2 eq_refl).
  - exact (H3 eq_refl eq_refl 60%N).
Defined.

(** C3 as stated fails: after a call that returned the empty list and
    wrote nothing, a later call whose cache read fails throws and fetches
    nothing. *)
Lemma empty_result_counterexample :
  let r := streamHandler env_offline_cache_lost "movie-42" world0 in
  fst r = Normal [] /\
  store (snd r) = store world0 /\
  streamHandler env_offline_cache_lost "movie-42" (elapse 60 (snd r)) =
  (Throw (MkError "Connection is closed."),
   emit (EGet "stream:movie-42") (elapse 60 (snd r))).
Proof. repeat split; reflexivity. Qed.

Lemma cache_faults_witness :
  streamHandler env_cache_down "movie-42" world0 =
    (Throw (MkError "Connection is closed."), emit (EGet "stream:movie-42") world0) /\
  exists wr,
    step wr = 6 /\
    streamHandler env_write_fails "movie-42" world0 =
    (Normal [failover_stream],
     emit (EError "Stream scrape failed: Connection is closed.")
       (emit (ESet "stream:movie-42" (Json.stringify [failover_stream]) 21600) wr)).
Proof.
  split.
  - exact (proj1 (cache_faults env_cache_down "movie-42" world0)
             (MkError "Connection is closed.") eq_refl).
  - destruct (proj2 (cache_faults env_write_fails "movie-42" world0) eq_refl eq_refl)
      as (l & wr & evs & w' & Hh & (_ & _ & Hlog & _) & Hw).
    assert (Hl : l = [failover_stream]).
    { assert (H : fst (streamHandler env_write_fails "movie-42" world0) = Normal l)
        by now rewrite Hh.
      vm_compute in H. injection H as <-. reflexivity. }
    subst l.
    assert (Hstep : step wr = 6).
    { assert (H : length (log (snd (streamHandler env_write_fails "movie-42" world0)))
                  = 8) by (vm_compute; reflexivity).
      rewrite Hh in H. cbn [snd] in H. unfold failover_stream in Hw.
      destruct (redis_fault env_write_fails (step wr)) as [e|] eqn:He.
      - subst w'. unfold emit in H. cbn [log] in H.
        rewrite !length_app in H. unfold step. simpl in H. lia.
      - exfalso. unfold step in He. destruct Hw as [_ Hw].
        destruct (log wr); [|discriminate He].
        rewrite Hw in H. discriminate H. }
    exists wr. split; [exact Hstep|].
    rewrite Hh. unfold failover_stream in Hw.
    change (redis_fault env_write_fails (step wr)) with (write_fails (step wr)) in Hw.
    rewrite Hstep in Hw. cbn [write_fails] in Hw. rewrite Hw. reflexivity.
Defined.

(** C7 as stated fails: the cache read fails and the handler throws the
    error of the read instead of resolving. *)
Lemma cache_faults_counterexample :
  redis_fault env_cache_down (step world0) = Some (MkError "Connection is closed.") /\
  streamHandler env_cache_down "movie-42" world0 =
  (Throw (MkError "Connection is closed."), emit (EGet "stream:movie-42") world0).
Proof. split; reflexivity. Qed.

Example write_failure_is_logged :
  let r := streamHandler env_write_fails "movie-42" world0 in
  fst r = Normal [failover_stream] /\
  store (snd r) = store world0 /\
  last (log (snd r)) = Some (EError "Stream scrape failed: Connection is closed.").
Proof. repeat split; vm_compute; reflexivity. Qed.

Lemma cached_list_is_returned_witness :
  let w1 := snd (streamHandler env_failover "movie-42" world0) in
  streamHandler env_failover "movie-42" (elapse 21599 w1) =
  (Normal [failover_stream], emit (EGet "stream:movie-42") (elapse 21599 w1)).
Proof.
  intros w1.
  refine (proj1 (cached_list_is_returned env_failover "movie-42" world0 w1
                   (elapse 21599 w1) [failover_stream] (sample_json_roundtrip _ _)
                   eq_refl eq_refl eq_refl _ _ eq_refl eq_refl) eq_refl).
  - discriminate.
  - intros msg H. vm_compute in H.
    repeat (destruct H as [H|H]; [discriminate H|]). exact H.
Defined.

(** C9 as stated fails: with the list stored and the entry one minute old,
    a later call whose cache read fails throws instead of returning the
    list. *)
Lemma cached_list_counterexample :
  let r := streamHandler env_failover_cache_lost "movie-42" world0 in
  fst r = Normal [failover_stream] /\
  live (elapse 60 (snd r)) "stream:movie-42" = Some (Json.stringify [failover_stream]) /\
  streamHandler env_failover_cache_lost "movie-42" (elapse 60 (snd r)) =
  (Throw (MkError "Connection is closed."),
   emit (EGet "stream:movie-42") (elapse 60 (snd r))).
Proof. repeat split; vm_compute; reflexivity. Qed.

Example expired_entry_resolves_again :
  let w1 := snd (streamHandler env_failover "movie-42" world0) in
  live (elapse 21600 w1) "stream:movie-42" = None /\
  In (EFetch "https://cuevana3.me/movie-42")
     (new_events w1 (snd (streamHandler env_failover "movie-42" (elapse 21600 w1)))).
Proof. split; vm_compute; auto. Qed.

(* ================================================================= *)
(** ** Trimming and splitting *)

Lemma trim_start_first s :
  match trim_start s with String c _ => is_white_space c = false | EmptyString => True end.
Proof.
  induction s as [|c s IH]; simpl; [exact I|].
  destruct (is_white_space c) eqn:Hc; [exact IH | exact Hc].
Qed.

Lemma trim_end_first s :
  match s with String c _ => is_white_space c = false | EmptyString => True end ->
  match trim_end s with String c _ => is_white_space c = false | EmptyString => True end.
Proof.
  destruct s as [|c s]; simpl; [auto|]. intros Hc.
  destruct (trim_end s); [rewrite Hc|]; exact Hc.
Qed.

Lemma trim_end_last s :
  match last_char (trim_end s) with Some c => is_white_space c = false | None => True end.
Proof.
  induction s as [|c s IH]; simpl; [exact I|].
  destruct (trim_end s) as [|c' t] eqn:Ht.
  - destruct (is_white_space c) eqn:Hc; simpl; auto.
  - exact IH.
Qed.

Lemma String_trim_ends s : no_space_at_ends (String_trim s).
Proof.
  unfold String_trim. split.
  - apply trim_end_first, trim_start_first.
  - apply trim_end_last.
Qed.

Lemma String_split_cons sep s : exists seg segs, String_split sep s = seg :: segs.
Proof.
  induction s as [|c s (seg & segs & IH)]; simpl; [eauto|].
  destruct (Ascii.eqb c sep); [eauto|]. rewrite IH. eauto.
Qed.

Lemma String_split_clean s : Forall (fun seg => all_in not_slash seg = true) (String_split "/" s).
Proof.
  induction s as [|c s IH]; simpl; [repeat constructor|].
  destruct (Ascii.eqb c "/") eqn:Hc; [constructor; [reflexivity | exact IH]|].
  destruct (String_split "/" s) as [|seg segs]; [repeat constructor; simpl|].
  - unfold not_slash. now rewrite Hc.
  - inversion IH as [|? ? Hseg Hsegs]; subst. constructor; [|exact Hsegs].
    simpl. unfold not_slash at 1. now rewrite Hc.
Qed.

Lemma join_String_split s : join "/" (String_split "/" s) = s.
Proof.
  induction s as [|c s IH]; [reflexivity|]. simpl.
  destruct (Ascii.eqb_spec c "/") as [->|Hc].
  - destruct (String_split_cons "/" s) as (seg & segs & Hs). rewrite Hs in *.
    change (join "/" (EmptyString :: seg :: segs))
      with (String "/" (join "/" (seg :: segs))). now rewrite IH.
  - destruct (String_split "/" s) as [|seg segs].
    + simpl in IH. now subst.
    + destruct segs as [|seg' segs]; simpl in *; now rewrite IH.
Qed.

Lemma String_split_trailing s :
  String_split "/" (s +:+ "/") = String_split "/" s ++ [EmptyString].
Proof.
  induction s as [|c s IH]; [reflexivity|]. simpl.
  destruct (Ascii.eqb c "/"); rewrite IH; [reflexivity|].
  destruct (String_split_cons "/" s) as (seg & segs & ->). reflexivity.
Qed.

Lemma join_last (l : list string) :
  l <> [] ->
  exists dir,
    join "/" l = dir +:+ List.last l EmptyString /\
    (dir = EmptyString \/ exists d, dir = d +:+ "/").
Proof.
  induction l as [|x l IH]; [congruence|]. intros _.
  destruct l as [|y l].
  - exists EmptyString. auto.
  - destruct IH as (dir & Hj & Hd); [discriminate|].
    exists (x +:+ "/" +:+ dir).
    change (join "/" (x :: y :: l)) with (x +:+ "/" +:+ join "/" (y :: l)).
    change (List.last (x :: y :: l) EmptyString) with (List.last (y :: l) EmptyString).
    rewrite Hj, !append_assoc. split; [reflexivity|]. right.
    destruct Hd as [->|(d & ->)].
    + exists x. reflexivity.
    + exists (x +:+ "/" +:+ d). now rewrite !append_assoc.
Qed.

Lemma contentId_of_clean href : all_in not_slash (contentId_of href) = true.
Proof.
  unfold contentId_of. pose proof (String_split_clean href) as H.
  induction H as [|seg segs Hseg _ IH]; [reflexivity|].
  destruct segs; [exact Hseg | exact IH].
Qed.

(* ================================================================= *)
(** ** The codecs of the catalog and meta examples *)

(** One punctuation character read between tokens. *)
Ltac lex_punct c tok :=
  cbn [Json.lex_run];
  match goal with
  | |- context [Json.lex_step (Json.Out, ?t) c] =>
      change (Json.lex_step (Json.Out, t) c) with (Some (Json.Out, tok :: t))
  end;
  cbv iota.

Lemma lex_preview m toks :
  Json.lex_run (Json.Out, toks) (MetaJson.stringify_preview m) =
  Some (Json.Out, rev (preview_tokens m) ++ toks).
Proof.
  unfold MetaJson.stringify_preview, preview_tokens.
  change ("{" +:+ ?s) with (String "{" s).
  lex_punct "{"%char Json.TLBrace.
  rewrite lex_run_app, lex_member.
  change ("," +:+ ?s) with (String "," s).
  lex_punct ","%char Json.TComma.
  rewrite lex_run_app, lex_member.
  change ("," +:+ ?s) with (String "," s).
  lex_punct ","%char Json.TComma.
  rewrite lex_run_app, lex_member.
  destruct (meta_poster m) as [p|].
  - change ("," +:+ ?s) with (String "," s).
    lex_punct ","%char Json.TComma.
    rewrite lex_run_app, lex_member. reflexivity.
  - reflexivity.
Qed.

Lemma lex_preview_items l : forall toks,
  Json.lex_run (Json.Out, toks) (MetaJson.stringify_preview_items l) =
  Some (Json.Out, rev (preview_items_tokens l) ++ toks).
Proof.
  induction l as [|x l IH]; intros toks; [reflexivity|].
  destruct l as [|y l].
  - apply lex_preview.
  - change (MetaJson.stringify_preview_items (x :: y :: l))
      with (MetaJson.stringify_preview x +:+
            String "," (MetaJson.stringify_preview_items (y :: l))).
    rewrite lex_run_app, lex_preview.
    lex_punct ","%char Json.TComma.
    rewrite IH.
    change (preview_items_tokens (x :: y :: l))
      with (preview_tokens x ++ Json.TComma :: preview_items_tokens (y :: l)).
    rewrite rev_app_distr. cbn [rev]. rewrite <- !app_assoc. reflexivity.
Qed.

Lemma lex_stringify_previews l :
  Json.lex (MetaJson.stringify_previews l) =
  Some (Json.TLBracket :: preview_items_tokens l ++ [Json.TRBracket]).
Proof.
  unfold Json.lex, MetaJson.stringify_previews.
  change ("[" +:+ ?s) with (String "[" s).
  lex_punct "["%char Json.TLBracket.
  rewrite lex_run_app, lex_preview_items.
  lex_punct "]"%char Json.TRBracket.
  cbn [rev]. rewrite rev_app_distr, rev_involutive. reflexivity.
Qed.

Lemma parse_preview_items_tokens x l :
  MetaJson.parse_preview_items (preview_items_tokens (x :: l) ++ [Json.TRBracket])
  = Some (x :: l).
Proof.
  revert x. induction l as [|y l IH]; intros [i t n [p|]].
  - reflexivity.
  - reflexivity.
  - change (preview_items_tokens (MkMetaPreview i t n (Some p) :: y :: l))
      with (preview_tokens (MkMetaPreview i t n (Some p)) ++
            Json.TComma :: preview_items_tokens (y :: l)).
    rewrite <- app_assoc. unfold preview_tokens.
    cbn [List.app meta_id meta_type meta_name meta_poster MetaJson.parse_preview_items].
    change (String.eqb "id" "id" && String.eqb "type" "type" && String.eqb "name" "name")
      with true. cbv iota.
    change (String.eqb "poster" "poster") with true. cbv iota.
    change (Json.TComma :: preview_items_tokens (y :: l) ++ [Json.TRBracket])
      with (Json.TComma :: (preview_items_tokens (y :: l) ++ [Json.TRBracket])).
    now rewrite IH.
  - change (preview_items_tokens (MkMetaPreview i t n None :: y :: l))
      with (preview_tokens (MkMetaPreview i t n None) ++
            Json.TComma :: preview_items_tokens (y :: l)).
    rewrite <- app_assoc. unfold preview_tokens.
    cbn [List.app meta_id meta_type meta_name meta_poster MetaJson.parse_preview_items].
    change (String.eqb "id" "id" && String.eqb "type" "type" && String.eqb "name" "name")
      with true. cbv iota.
    change (Json.TComma :: preview_items_tokens (y :: l) ++ [Json.TRBracket])
      with (Json.TComma :: (preview_items_tokens (y :: l) ++ [Json.TRBracket])).
    now rewrite IH.
Qed.

Lemma previews_roundtrip :
  codec_roundtrip (MkCodec MetaJson.stringify_previews MetaJson.parse_previews).
Proof.
  intros l. split; [|discriminate]. cbn [parse stringify].
  unfold MetaJson.parse_previews. rewrite lex_stringify_previews.
  destruct l as [|x l]; [reflexivity|].
  unfold MetaJson.parse_preview_tokens.
  pose proof (parse_preview_items_tokens x l) as H.
  destruct (preview_items_tokens (x :: l) ++ [Json.TRBracket]) as [|tok toks] eqn:Ht.
  - discriminate.
  - destruct tok; now rewrite H.
Qed.

Lemma detail_roundtrip :
  codec_roundtrip (MkCodec MetaJson.stringify_detail MetaJson.parse_detail).
Proof.
  intros [i t n p d]. split; [|discriminate]. cbn [parse stringify].
  unfold MetaJson.parse_detail, Json.lex, MetaJson.stringify_detail.
  cbn [detail_id detail_type detail_name detail_poster detail_description].
  change ("{" +:+ ?s) with (String "{" s).
  lex_punct "{"%char Json.TLBrace.
  rewrite lex_run_app, lex_member.
  change ("," +:+ ?s) with (String "," s).
  lex_punct ","%char Json.TComma.
  rewrite lex_run_app, lex_member.
  change ("," +:+ ?s) with (String "," s).
  lex_punct ","%char Json.TComma.
  rewrite lex_run_app, lex_member.
  change ("," +:+ ?s) with (String "," s).
  lex_punct ","%char Json.TComma.
  rewrite lex_run_app, lex_member.
  change ("," +:+ ?s) with (String "," s).
  lex_punct ","%char Json.TComma.
  rewrite lex_run_app, lex_member. reflexivity.
Qed.

(* ================================================================= *)
(** ** The catalog and meta handlers *)

Lemma catalog_article_linked lib type el h s w :
  article_link el = Some h ->
  catalog_article lib type el s w = (Normal tt, s ++ [preview lib type el], w).
Proof.
  intros H. unfold catalog_article, preview. fold (article_link el). now rewrite H.
Qed.

Lemma catalog_article_unlinked lib type el s w :
  article_link el = None ->
  catalog_article lib type el s w =
  (Throw (MkError (undefined_read_message lib)), s, w).
Proof.
  intros H. unfold catalog_article. fold (article_link el). now rewrite H.
Qed.

Lemma each_articles lib type arts : forall s w,
  each_in (catalog_article lib type) arts s w =
  ((if forallb linked arts then Normal tt
    else Throw (MkError (undefined_read_message lib))),
   s ++ map (preview lib type) (linked_prefix arts), w).
Proof.
  induction arts as [|el arts IH]; intros s w.
  - cbn. unfold ret_in. now rewrite app_nil_r.
  - cbn [each_in forallb linked_prefix]. unfold bind_in, linked at 1 3.
    destruct (article_link el) as [h|] eqn:Hl.
    + rewrite (catalog_article_linked _ _ _ _ _ _ Hl), IH.
      cbn [andb map]. now rewrite <- app_assoc.
    + rewrite (catalog_article_unlinked _ _ _ _ _ Hl).
      cbn [andb map]. now rewrite app_nil_r.
Qed.

Lemma linked_prefix_all arts : forallb linked arts = true -> linked_prefix arts = arts.
Proof.
  induction arts as [|el arts IH]; simpl; [reflexivity|].
  destruct (linked el); [|discriminate]. intros H. now rewrite IH.
Qed.

Lemma linked_prefix_stop good bad rest :
  forallb linked good = true -> linked bad = false ->
  linked_prefix (good ++ bad :: rest) = good /\
  forallb linked (good ++ bad :: rest) = false.
Proof.
  induction good as [|el good IH]; simpl; intros Hg Hb.
  - now rewrite Hb.
  - destruct (linked el); [|discriminate]. destruct (IH Hg Hb) as [-> ->]. auto.
Qed.

(** What the catalog handler does after a read that succeeds and misses. *)
Lemma catalogHandler_miss env lib type id w :
  redis_fault env (step w) = None ->
  truthy (live w ("catalog:" +:+ type +:+ ":" +:+ id)) = false ->
  catalogHandler env lib type id w =
  let key := "catalog:" +:+ type +:+ ":" +:+ id in
  let w2 := emit (EFetch (catalog_target type)) (emit (EGet key) w) in
  match http env (S (step w)) (catalog_target type) with
  | Throw e =>
      (Normal [], emit (EError ("Catalog scrape failed: " +:+ message e)) w2)
  | Normal res =>
      let arts := cheerio_select "article" (cheerio_load env res) in
      let metas := map (preview lib type) (linked_prefix arts) in
      if forallb linked arts then
        match redis_fault env (S (S (step w))) with
        | None =>
            (Normal metas,
             MkWorld (<[key := (stringify (metas_codec lib) metas, (now w + 3600)%N)]>
                        (store w))
                     (now w)
                     (log w2 ++ [ESet key (stringify (metas_codec lib) metas) 3600]))
        | Some e =>
            (Normal metas,
             emit (EError ("Catalog scrape failed: " +:+ message e))
               (emit (ESet key (stringify (metas_codec lib) metas) 3600) w2))
        end
      else
        (Normal metas,
         emit (EError ("Catalog scrape failed: " +:+ undefined_read_message lib)) w2)
  end.
Proof.
  intros Hf Hmiss. cbv zeta.
  unfold catalogHandler, function_in, bind_in, effect, redis_get. rewrite Hf, Hmiss.
  unfold set_var, try_catch_in, catalogHandler_try, bind_in, effect, axios_get,
    get_var, redis_set, console_error.
  fold (catalog_target type). rewrite !step_emit.
  destruct (http env (S (step w)) (catalog_target type)) as [res|e]; [|reflexivity].
  rewrite each_articles.
  destruct (forallb linked _); [|reflexivity].
  rewrite !step_emit. cbn [List.app].
  destruct (redis_fault env (S (S (step w)))); reflexivity.
Qed.

Lemma catalogHandler_fault env lib type id w e :
  redis_fault env (step w) = Some e ->
  catalogHandler env lib type id w =
  (Throw e, emit (EGet ("catalog:" +:+ type +:+ ":" +:+ id)) w).
Proof.
  intros H. unfold catalogHandler, function_in, bind_in, effect, redis_get.
  now rewrite H.
Qed.

Lemma catalogHandler_hit env lib type id w :
  redis_fault env (step w) = None ->
  truthy (live w ("catalog:" +:+ type +:+ ":" +:+ id)) = true ->
  catalogHandler env lib type id w =
  (parse (metas_codec lib) (text_of (live w ("catalog:" +:+ type +:+ ":" +:+ id))),
   emit (EGet ("catalog:" +:+ type +:+ ":" +:+ id)) w).
Proof.
  intros H Hhit. unfold catalogHandler, function_in, bind_in, effect, redis_get, lift_in.
  now rewrite H, Hhit.
Qed.

Lemma metaHandler_fault env lib id type w e :
  redis_fault env (step w) = Some e ->
  metaHandler env lib id type w = (Throw e, emit (EGet ("meta:" +:+ id)) w).
Proof.
  intros H. unfold metaHandler, function_in, bind_in, effect, redis_get.
  now rewrite H.
Qed.

Lemma metaHandler_hit env lib id type w :
  redis_fault env (step w) = None ->
  truthy (live w ("meta:" +:+ id)) = true ->
  metaHandler env lib id type w =
  (parse (meta_codec lib) (text_of (live w ("meta:" +:+ id))),
   emit (EGet ("meta:" +:+ id)) w).
Proof.
  intros H Hhit. unfold metaHandler, function_in, bind_in, effect, redis_get, lift_in.
  now rewrite H, Hhit.
Qed.

Lemma metaHandler_miss env lib id type w :
  redis_fault env (step w) = None ->
  truthy (live w ("meta:" +:+ id)) = false ->
  metaHandler env lib id type w =
  let key := "meta:" +:+ id in
  let text := stringify (meta_codec lib) (detail_of id type) in
  match redis_fault env (S (step w)) with
  | None =>
      (Normal (detail_of id type),
       MkWorld (<[key := (text, (now w + 86400)%N)]> (store w)) (now w)
               (log w ++ [EGet key; ESet key text 86400]))
  | Some e => (Throw e, emit (ESet key text 86400) (emit (EGet key) w))
  end.
Proof.
  intros Hf Hmiss. cbv zeta.
  unfold metaHandler, function_in, bind_in, effect, redis_get. rewrite Hf, Hmiss.
  unfold redis_set, ret_in. rewrite step_emit.
  change (24 * 3600)%N with 86400%N. fold (detail_of id type).
  destruct (redis_fault env (S (step w))); [reflexivity|].
  cbn [emit store now log]. rewrite <- app_assoc. reflexivity.
Qed.

Lemma String_split_single s :
  all_in not_slash s = true -> String_split "/" s = [s].
Proof.
  induction s as [|c s IH]; [reflexivity|]. simpl. unfold not_slash at 1.
  destruct (Ascii.eqb c "/"); [discriminate|]. simpl. intros H. now rewrite (IH H).
Qed.

(** X1.  After a read that misses, when the listing page is fetched,
    every article has a link and the cache write succeeds, the catalog
    handler returns one object per article, in document order, and stores
    that list for one hour, also when the page has no article and the
    list is empty. *)
Theorem catalog_listing_is_stored (env : Env) (lib : Lib) (type id : string)
    (w : World) (res : string) :
  redis_fault env (step w) = None ->
  truthy (live w ("catalog:" +:+ type +:+ ":" +:+ id)) = false ->
  http env (S (step w)) (catalog_target type) = Normal res ->
  forallb linked (cheerio_select "article" (cheerio_load env res)) = true ->
  redis_fault env (S (S (step w))) = None ->
  let metas := map (preview lib type) (cheerio_select "article" (cheerio_load env res)) in
  let text := stringify (metas_codec lib) metas in
  exists w',
    catalogHandler env lib type id w = (Normal metas, w') /\
    store w' =
      <[("catalog:" +:+ type +:+ ":" +:+ id) := (text, (now w + 3600)%N)]> (store w) /\
    new_events w w' =
      [EGet ("catalog:" +:+ type +:+ ":" +:+ id); EFetch (catalog_target type);
       ESet ("catalog:" +:+ type +:+ ":" +:+ id) text 3600].
Proof.
  intros Hf Hmiss Hpage Hall Hset metas text.
  rewrite (catalogHandler_miss _ _ _ _ _ Hf Hmiss). cbv zeta.
  rewrite Hpage, Hall, Hset, (linked_prefix_all _ Hall).
  eexists. split; [reflexivity|]. split; [reflexivity|].
  apply new_events_app. cbn [log emit]. rewrite <- !app_assoc. reflexivity.
Qed.

Lemma catalog_listing_is_stored_witness :
  (exists w',
     catalogHandler env_listing sample_lib "movie" "top-movies" world0
     = (Normal [preview_movie; preview_show], w') /\
     store w' =
       <["catalog:movie:top-movies" :=
           (MetaJson.stringify_previews [preview_movie; preview_show], 3600%N)]>
         (store world0) /\
     new_events world0 w' =
       [EGet "catalog:movie:top-movies"; EFetch "https://cuevana3.me/";
        ESet "catalog:movie:top-movies"
             (MetaJson.stringify_previews [preview_movie; preview_show]) 3600]) /\
  (exists w',
     catalogHandler env_listing_empty sample_lib "series" "top-shows" world0
     = (Normal [], w') /\
     store w' = <["catalog:series:top-shows" := ("[]", 3600%N)]> (store world0) /\
     new_events world0 w' =
       [EGet "catalog:series:top-shows"; EFetch "https://cuevana3.me/series";
        ESet "catalog:series:top-shows" "[]" 3600]).
Proof.
  split.
  - exact (catalog_listing_is_stored env_listing sample_lib "movie" "top-movies"
             world0 listing_page eq_refl eq_refl eq_refl eq_refl eq_refl).
  - exact (catalog_listing_is_stored env_listing_empty sample_lib "series" "top-shows"
             world0 listing_page_empty eq_refl eq_refl eq_refl eq_refl eq_refl).
Defined.

(** X2.  A listing stored by the catalog handler, empty or not, is what a
    later call for the same type and id returns while the entry is in
    place and less than one hour old; that call fetches nothing. *)
Theorem cached_listing_is_served (env : Env) (lib : Lib) (type id : string)
    (w w2 : World) (res : string) :
  codec_roundtrip (metas_codec lib) ->
  redis_fault env (step w) = None ->
  truthy (live w ("catalog:" +:+ type +:+ ":" +:+ id)) = false ->
  http env (S (step w)) (catalog_target type) = Normal res ->
  forallb linked (cheerio_select "article" (cheerio_load env res)) = true ->
  redis_fault env (S (S (step w))) = None ->
  store w2 !! ("catalog:" +:+ type +:+ ":" +:+ id) =
    store (snd (catalogHandler env lib type id w)) !! ("catalog:" +:+ type +:+ ":" +:+ id) ->
  (now w2 < now w + 3600)%N ->
  redis_fault env (step w2) = None ->
  catalogHandler env lib type id w2 =
  (Normal (map (preview lib type) (cheerio_select "article" (cheerio_load env res))),
   emit (EGet ("catalog:" +:+ type +:+ ":" +:+ id)) w2).
Proof.
  intros Hcodec Hf Hmiss Hpage Hall Hset Hstore Hnow Hf2.
  rewrite (catalogHandler_miss _ _ _ _ _ Hf Hmiss) in Hstore. cbv zeta in Hstore.
  rewrite Hpage, Hall, Hset, (linked_prefix_all _ Hall) in Hstore.
  cbn [snd store] in Hstore. rewrite lookup_insert_eq in Hstore.
  set (metas := map (preview lib type) _) in *.
  assert (Hlive : live w2 ("catalog:" +:+ type +:+ ":" +:+ id)
                  = Some (stringify (metas_codec lib) metas)).
  { unfold live. rewrite Hstore.
    destruct (N.ltb_spec (now w2) (now w + 3600)); [reflexivity | lia]. }
  destruct (Hcodec metas) as [Hparse Hne].
  rewrite catalogHandler_hit; auto.
  - rewrite Hlive. cbn [text_of]. now rewrite Hparse.
  - rewrite Hlive. cbn [truthy].
    now destruct (String.eqb_spec (stringify (metas_codec lib) metas) "").
Qed.

Lemma cached_listing_is_served_witness :
  let w1 := snd (catalogHandler env_listing_empty sample_lib "series" "top-shows" world0) in
  catalogHandler env_listing_empty sample_lib "series" "top-shows" (elapse 3599 w1) =
  (Normal [], emit (EGet "catalog:series:top-shows") (elapse 3599 w1)).
Proof.
  intros w1.
  exact (cached_listing_is_served env_listing_empty sample_lib "series" "top-shows"
           world0 (elapse 3599 w1) listing_page_empty previews_roundtrip
           eq_refl eq_refl eq_refl eq_refl eq_refl eq_refl eq_refl eq_refl).
Defined.

(** X3.  A failed scrape is not cached.  After a read that misses: when
    the fetch of the listing page fails the catalog handler returns the
    empty list; when an article has no link the handler returns the
    objects of the articles before it and drops the rest; in both cases
    the error is logged and no cache write is issued. *)
Theorem catalog_failure_is_not_cached (env : Env) (lib : Lib) (type id : string)
    (w : World) :
  redis_fault env (step w) = None ->
  truthy (live w ("catalog:" +:+ type +:+ ":" +:+ id)) = false ->
  (forall e,
     http env (S (step w)) (catalog_target type) = Throw e ->
     catalogHandler env lib type id w =
     (Normal [],
      emit (EError ("Catalog scrape failed: " +:+ message e))
        (emit (EFetch (catalog_target type))
           (emit (EGet ("catalog:" +:+ type +:+ ":" +:+ id)) w)))) /\
  (forall res good bad rest,
     http env (S (step w)) (catalog_target type) = Normal res ->
     cheerio_select "article" (cheerio_load env res) = good ++ bad :: rest ->
     forallb linked good = true ->
     article_link bad = None ->
     catalogHandler env lib type id w =
     (Normal (map (preview lib type) good),
      emit (EError ("Catalog scrape failed: " +:+ undefined_read_message lib))
        (emit (EFetch (catalog_target type))
           (emit (EGet ("catalog:" +:+ type +:+ ":" +:+ id)) w)))).
Proof.
  intros Hf Hmiss. rewrite (catalogHandler_miss _ _ _ _ _ Hf Hmiss). cbv zeta. split.
  - intros e He. now rewrite He.
  - intros res good bad rest Hpage Harts Hgood Hbad. rewrite Hpage, Harts.
    assert (Hl : linked bad = false) by (unfold linked; now rewrite Hbad).
    destruct (linked_prefix_stop good bad rest Hgood Hl) as [-> ->]. reflexivity.
Qed.

Lemma catalog_failure_is_not_cached_witness :
  let r := catalogHandler env_listing_broken sample_lib "movie" "top-movies" world0 in
  fst r = Normal [preview_movie] /\
  store (snd r) = store world0 /\
  log (snd r) =
    [EGet "catalog:movie:top-movies"; EFetch "https://cuevana3.me/";
     EError "Catalog scrape failed: Cannot read properties of undefined (reading 'split')"].
Proof.
  intros r.
  pose proof (proj2 (catalog_failure_is_not_cached env_listing_broken sample_lib
                       "movie" "top-movies" world0 eq_refl eq_refl)
                listing_page_broken [article_movie] article_without_link [article_show]
                eq_refl eq_refl eq_refl eq_refl) as H.
  subst r. rewrite H. repeat split.
Defined.

(** X4.  Every object of a list the catalog handler scrapes, complete or
    cut short, carries the requested type, an id without a slash and a
    name with no white space at either end. *)
Theorem scraped_metas_are_well_formed (env : Env) (lib : Lib) (type id : string)
    (w : World) :
  redis_fault env (step w) = None ->
  truthy (live w ("catalog:" +:+ type +:+ ":" +:+ id)) = false ->
  exists l w',
    catalogHandler env lib type id w = (Normal l, w') /\
    Forall (fun m =>
      meta_type m = type /\
      all_in not_slash (meta_id m) = true /\
      no_space_at_ends (meta_name m)) l.
Proof.
  intros Hf Hmiss. rewrite (catalogHandler_miss _ _ _ _ _ Hf Hmiss). cbv zeta.
  assert (Hp : forall arts,
    Forall (fun m => meta_type m = type /\ all_in not_slash (meta_id m) = true /\
                     no_space_at_ends (meta_name m))
           (map (preview lib type) arts)).
  { intros arts. apply List.Forall_forall. intros m Hm.
    apply List.in_map_iff in Hm as (el & <- & _). unfold preview.
    cbn [meta_type meta_id meta_name].
    split; [reflexivity|]. split; [apply contentId_of_clean | apply String_trim_ends]. }
  destruct (http env (S (step w)) (catalog_target type)) as [res|e].
  - destruct (forallb linked _); [destruct (redis_fault env (S (S (step w))))|];
      do 2 eexists; (split; [reflexivity | apply Hp]).
  - do 2 eexists. split; [reflexivity | constructor].
Qed.

Lemma scraped_metas_are_well_formed_witness :
  exists l w',
    catalogHandler env_listing sample_lib "movie" "top-movies" world0 = (Normal l, w') /\
    Forall (fun m =>
      meta_type m = "movie" /\
      all_in not_slash (meta_id m) = true /\
      no_space_at_ends (meta_name m)) l.
Proof.
  exact (scraped_metas_are_well_formed env_listing sample_lib "movie" "top-movies"
           world0 eq_refl eq_refl).
Defined.

(** X5.  The id taken from a link is what follows its last slash: the
    link is a directory part, empty or ending with a slash, followed by
    the id; the id has no slash; a link without a slash is its own id and
    a link that ends with a slash has the empty id. *)
Theorem contentId_is_last_segment (href : string) :
  (exists dir,
     href = dir +:+ contentId_of href /\
     (dir = EmptyString \/ exists d, dir = d +:+ "/")) /\
  all_in not_slash (contentId_of href) = true /\
  (all_in not_slash href = true -> contentId_of href = href) /\
  contentId_of (href +:+ "/") = EmptyString.
Proof.
  split; [|split; [|split]].
  - unfold contentId_of.
    destruct (String_split_cons "/" href) as (seg & segs & Hs).
    destruct (join_last (String_split "/" href)) as (dir & Hj & Hd).
    + rewrite Hs. discriminate.
    + rewrite join_String_split in Hj. eauto.
  - apply contentId_of_clean.
  - intros H. unfold contentId_of. now rewrite (String_split_single _ H).
  - unfold contentId_of. rewrite String_split_trailing. apply last_last.
Qed.

(** X6.  The meta handler keys its entry by the id alone: once a call
    whose read missed and whose write succeeded has stored the object
    built for a type, a later call for the same id that finds the entry
    in place and less than a day old, and whose cache read succeeds,
    returns that object, with the first type, whatever type it asks for.
    The codec is assumed to read back what it wrote and to write a text
    that is not empty. *)
Theorem meta_first_type_wins (env : Env) (lib : Lib) (id t1 t2 : string)
    (w w2 : World) :
  codec_roundtrip (meta_codec lib) ->
  redis_fault env (step w) = None ->
  truthy (live w ("meta:" +:+ id)) = false ->
  redis_fault env (S (step w)) = None ->
  store w2 !! ("meta:" +:+ id) =
    store (snd (metaHandler env lib id t1 w)) !! ("meta:" +:+ id) ->
  (now w2 < now w + 86400)%N ->
  redis_fault env (step w2) = None ->
  fst (metaHandler env lib id t1 w) =
    Normal (MkMetaDetail id t1 ("Scraped " +:+ id)
                         "https://via.placeholder.com/300" "Auto scraped") /\
  metaHandler env lib id t2 w2 =
    (Normal (MkMetaDetail id t1 ("Scraped " +:+ id)
                          "https://via.placeholder.com/300" "Auto scraped"),
     emit (EGet ("meta:" +:+ id)) w2).
Proof.
  intros Hcodec Hf Hmiss Hset Hstore Hnow Hf2.
  rewrite (metaHandler_miss _ _ _ _ _ Hf Hmiss) in *. cbv zeta in *.
  rewrite Hset in *. split; [reflexivity|].
  cbn [snd store] in Hstore. rewrite lookup_insert_eq in Hstore.
  assert (Hlive : live w2 ("meta:" +:+ id)
                  = Some (stringify (meta_codec lib) (detail_of id t1))).
  { unfold live. rewrite Hstore.
    destruct (N.ltb_spec (now w2) (now w + 86400)); [reflexivity | lia]. }
  destruct (Hcodec (detail_of id t1)) as [Hparse Hne].
  rewrite metaHandler_hit; auto.
  - rewrite Hlive. cbn [text_of]. now rewrite Hparse.
  - rewrite Hlive. cbn [truthy].
    now destruct (String.eqb_spec (stringify (meta_codec lib) (detail_of id t1)) "").
Qed.

Lemma meta_first_type_wins_witness :
  let w1 := snd (metaHandler env_listing sample_lib "movie-42" "movie" world0) in
  fst (metaHandler env_listing sample_lib "movie-42" "movie" world0) = Normal detail_movie /\
  metaHandler env_listing sample_lib "movie-42" "series" (elapse 60 w1) =
    (Normal detail_movie, emit (EGet "meta:movie-42") (elapse 60 w1)).
Proof.
  intros w1.
  exact (meta_first_type_wins env_listing sample_lib "movie-42" "movie" "series"
           world0 (elapse 60 w1) detail_roundtrip
           eq_refl eq_refl eq_refl eq_refl eq_refl eq_refl).
Defined.

(** X7.  The meta handler has no try block: when its read misses and its
    write fails, the handler throws the error of the write and returns
    nothing, although the object was already built; the store is left as
    it was. *)
Theorem meta_write_failure_propagates (env : Env) (lib : Lib) (id type : string)
    (w : World) (e : JsError) :
  redis_fault env (step w) = None ->
  truthy (live w ("meta:" +:+ id)) = false ->
  redis_fault env (S (step w)) = Some e ->
  exists w',
    metaHandler env lib id type w = (Throw e, w') /\
    store w' = store w /\
    exists text, new_events w w' = [EGet ("meta:" +:+ id); ESet ("meta:" +:+ id) text 86400].
Proof.
  intros Hf Hmiss Hset. rewrite (metaHandler_miss _ _ _ _ _ Hf Hmiss). cbv zeta.
  rewrite Hset. eexists. split; [reflexivity|]. split; [reflexivity|].
  eexists. apply new_events_app. cbn [log emit]. rewrite <- app_assoc. reflexivity.
Qed.

Lemma meta_write_failure_propagates_witness :
  exists w',
    metaHandler env_meta_write_fails sample_lib "movie-42" "movie" world0
    = (Throw (MkError "Connection is closed."), w') /\
    store w' = store world0 /\
    exists text,
      new_events world0 w' = [EGet "meta:movie-42"; ESet "meta:movie-42" text 86400].
Proof.
  exact (meta_write_failure_propagates env_meta_write_fails sample_lib "movie-42" "movie"
           world0 (MkError "Connection is closed.") eq_refl eq_refl eq_refl).
Defined.

(* ================================================================= *)
(** ** What a request touches *)

Lemma fetches_app a b : fetches (a ++ b) = fetches a + fetches b.
Proof. unfold fetches. now rewrite List.filter_app, length_app. Qed.

Ltac trace_of_stage :=
  eexists _, _, _; split; [reflexivity|]; split;
    [ cbn [log emit]; rewrite <- ?app_assoc; cbn [List.app]; reflexivity
    | unfold fetches; cbn [List.filter is_fetch length]; lia ].

(** The primary resolver fetches between one and three pages. *)
Lemma scrapeCuevanaStream_fetches env id w :
  exists l evs w',
    scrapeCuevanaStream env id w = (Normal l, w') /\
    log w' = log w ++ evs /\ 1 <= fetches evs <= 3.
Proof.
  rewrite scrapeCuevanaStream_unfold. primary_stages env w; trace_of_stage.
Qed.

(** The failover resolver fetches one or two pages. *)
Lemma scrapeFailoverStream_fetches env id w :
  exists l evs w',
    scrapeFailoverStream env id w = (Normal l, w') /\
    log w' = log w ++ evs /\ 1 <= fetches evs <= 2.
Proof.
  rewrite scrapeFailoverStream_unfold. failover_stages env w; trace_of_stage.
Qed.

Lemma after_cache_fetches env key l w :
  exists tail, log (after_cache env key l w) = log w ++ tail /\ fetches tail = 0.
Proof.
  destruct l as [|x l]; cbn [after_cache].
  - exists []. now rewrite app_nil_r.
  - unfold after_set. destruct (redis_fault env (step w)); eexists; split;
      try (cbn [log emit]; rewrite <- ?app_assoc; reflexivity); reflexivity.
Qed.

Lemma after_cache_store env key l w k :
  k <> key -> store (after_cache env key l w) !! k = store w !! k.
Proof.
  intros Hk. destruct l as [|x l]; cbn [after_cache]; [reflexivity|].
  unfold after_set. destruct (redis_fault env (step w)); cbn [store emit];
    [reflexivity | now apply lookup_insert_ne].
Qed.

Lemma after_cache_now env key l w : now (after_cache env key l w) = now w.
Proof.
  destruct l as [|x l]; cbn [after_cache]; [reflexivity|].
  unfold after_set. now destruct (redis_fault env (step w)).
Qed.

Lemma streamHandler_touches env id w k :
  k <> "stream:" +:+ id ->
  store (snd (streamHandler env id w)) !! k = store w !! k /\
  now (snd (streamHandler env id w)) = now w.
Proof.
  intros Hk. destruct (redis_fault env (step w)) as [e|] eqn:Hf.
  - now rewrite (streamHandler_fault _ _ _ _ Hf).
  - destruct (truthy (live w ("stream:" +:+ id))) eqn:Hhit.
    + now rewrite (streamHandler_hit _ _ _ Hf Hhit).
    + destruct (streamHandler_miss_trace _ _ _ Hf Hhit)
        as (l & wr & evs & (Hs & Hn & _) & ->). cbn [snd].
      rewrite after_cache_store, after_cache_now, Hs, Hn by assumption. auto.
Qed.

Lemma catalogHandler_touches env lib type id w k :
  k <> "catalog:" +:+ type +:+ ":" +:+ id ->
  store (snd (catalogHandler env lib type id w)) !! k = store w !! k /\
  now (snd (catalogHandler env lib type id w)) = now w.
Proof.
  intros Hk. destruct (redis_fault env (step w)) as [e|] eqn:Hf.
  - now rewrite (catalogHandler_fault _ _ _ _ _ _ Hf).
  - destruct (truthy (live w ("catalog:" +:+ type +:+ ":" +:+ id))) eqn:Hhit.
    + now rewrite (catalogHandler_hit _ _ _ _ _ Hf Hhit).
    + rewrite (catalogHandler_miss _ _ _ _ _ Hf Hhit). cbv zeta.
      destruct (http env (S (step w)) (catalog_target type)); [|now split].
      destruct (forallb linked _); [|now split].
      destruct (redis_fault env (S (S (step w)))); [now split|].
      cbn [snd store now]. split; [now apply lookup_insert_ne | reflexivity].
Qed.

Lemma metaHandler_touches env lib id type w k :
  k <> "meta:" +:+ id ->
  store (snd (metaHandler env lib id type w)) !! k = store w !! k /\
  now (snd (metaHandler env lib id type w)) = now w.
Proof.
  intros Hk. destruct (redis_fault env (step w)) as [e|] eqn:Hf.
  - now rewrite (metaHandler_fault _ _ _ _ _ _ Hf).
  - destruct (truthy (live w ("meta:" +:+ id))) eqn:Hhit.
    + now rewrite (metaHandler_hit _ _ _ _ _ Hf Hhit).
    + rewrite (metaHandler_miss _ _ _ _ _ Hf Hhit). cbv zeta.
      destruct (redis_fault env (S (step w))); [now split|].
      cbn [snd store now]. split; [now apply lookup_insert_ne | reflexivity].
Qed.

Lemma world_after_touches env lib r w k :
  k <> cacheKey r ->
  store (world_after env lib r w) !! k = store w !! k /\
  now (world_after env lib r w) = now w.
Proof.
  destruct r; cbn [world_after cacheKey];
    [apply streamHandler_touches | apply metaHandler_touches | apply catalogHandler_touches].
Qed.

(** A type without a colon ends at the first colon of the key. *)
Lemma colon_split t : forall t' i i',
  all_in not_colon t = true -> all_in not_colon t' = true ->
  t +:+ ":" +:+ i = t' +:+ ":" +:+ i' -> t = t' /\ i = i'.
Proof.
  induction t as [|c t IH]; intros [|c' t'] i i' Ht Ht' H; simpl in *.
  - injection H as <-. auto.
  - injection H as <- _. discriminate.
  - injection H as -> _. discriminate.
  - injection H as <- H. apply andb_prop in Ht as [_ Ht].
    apply andb_prop in Ht' as [_ Ht'].
    destruct (IH _ _ _ Ht Ht' H) as [-> ->]. auto.
Qed.

Lemma append_inj_r (p a b : string) : p +:+ a = p +:+ b -> a = b.
Proof. induction p as [|c p IH]; simpl; [auto|]. intros H. injection H as H. auto. Qed.

Lemma cacheKey_same_entry r r' :
  plain_type r -> plain_type r' ->
  cacheKey r = cacheKey r' -> same_entry r r'.
Proof.
  destruct r as [a|a t|t i], r' as [b|b t'|t' i']; cbn [cacheKey same_entry plain_type];
    intros Hr Hr' H; try (simpl in H; discriminate).
  - now apply (append_inj_r "stream:").
  - now apply (append_inj_r "meta:").
  - apply (append_inj_r "catalog:") in H. now apply colon_split.
Qed.

(** X8.  A request changes the store under the key of its own entry only
    and never the clock: every other key holds after the handler what it
    held before, whichever handler ran and however the call ended. *)
Theorem request_touches_own_entry (env : Env) (lib : Lib) (r : Request)
    (w : World) (k : string) :
  k <> cacheKey r ->
  store (world_after env lib r w) !! k = store w !! k /\
  now (world_after env lib r w) = now w.
Proof.
  intros Hk. destruct r as [id|id type|type id]; cbn [world_after cacheKey] in *.
  - now apply streamHandler_touches.
  - now apply metaHandler_touches.
  - now apply catalogHandler_touches.
Qed.

Lemma request_touches_own_entry_witness :
  store (world_after env_failover sample_lib (StreamRequest "movie-42") world0)
    !! "stream:movie-43"
  = store world0 !! "stream:movie-43" /\
  now (world_after env_failover sample_lib (StreamRequest "movie-42") world0) = now world0.
Proof.
  apply (request_touches_own_entry env_failover sample_lib (StreamRequest "movie-42")
           world0 "stream:movie-43").
  discriminate.
Defined.

(** X9.  Requests answered from different entries do not interfere.  The
    keys of two requests are equal exactly when both are stream requests
    for one id, or meta requests for one id (whatever their types), or
    catalog requests for one type and id; a catalog type is taken to have
    no colon.  What the cache answers for a request is therefore not
    changed by handling a request of another entry. *)
Theorem requests_do_not_interfere (env : Env) (lib : Lib) (r r' : Request)
    (w : World) :
  plain_type r -> plain_type r' ->
  (cacheKey r = cacheKey r' <-> same_entry r r') /\
  (~ same_entry r r' ->
   live (world_after env lib r w) (cacheKey r') = live w (cacheKey r')).
Proof.
  intros Hr Hr'. split; [split|].
  - now apply cacheKey_same_entry.
  - destruct r as [a|a t|t i], r' as [b|b t'|t' i']; cbn [cacheKey same_entry];
      try contradiction.
    + now intros ->.
    + now intros ->.
    + now intros [-> ->].
  - intros Hne.
    assert (Hk : cacheKey r' <> cacheKey r).
    { intros H. apply Hne. apply cacheKey_same_entry; auto. }
    destruct (world_after_touches env lib r w _ Hk) as [Hs Hn].
    unfold live. now rewrite Hs, Hn.
Qed.

Lemma requests_do_not_interfere_witness :
  (cacheKey (CatalogRequest "movie" "movie-42") = cacheKey (MetaRequest "movie-42" "movie")
   <-> same_entry (CatalogRequest "movie" "movie-42") (MetaRequest "movie-42" "movie")) /\
  (~ same_entry (CatalogRequest "movie" "movie-42") (MetaRequest "movie-42" "movie") ->
   live (world_after env_listing sample_lib (CatalogRequest "movie" "movie-42") world0)
        (cacheKey (MetaRequest "movie-42" "movie"))
   = live world0 (cacheKey (MetaRequest "movie-42" "movie"))).
Proof.
  exact (requests_do_not_interfere env_listing sample_lib
           (CatalogRequest "movie" "movie-42") (MetaRequest "movie-42" "movie") world0
           eq_refl I).
Defined.

Ltac trace_events :=
  erewrite new_events_app;
    [|cbn [log emit]; rewrite <- ?app_assoc; cbn [List.app]; reflexivity].

Lemma streamHandler_fetches env id w :
  fetches (new_events w (snd (streamHandler env id w))) <= 5.
Proof.
  destruct (redis_fault env (step w)) as [e|] eqn:Hf.
  - rewrite (streamHandler_fault _ _ _ _ Hf). cbn [snd].
    trace_events. cbn. lia.
  - destruct (truthy (live w ("stream:" +:+ id))) eqn:Hhit.
    + rewrite (streamHandler_hit _ _ _ Hf Hhit). cbn [snd].
      trace_events. cbn. lia.
    + destruct (streamHandler_miss _ _ _ Hf Hhit) as (l1 & w1 & H1 & Hh).
      destruct (scrapeCuevanaStream_fetches env id (emit (EGet ("stream:" +:+ id)) w))
        as (l1' & evs1 & w1' & H1' & Hl1 & Hn1).
      rewrite H1 in H1'. apply pair_equal_spec in H1' as [_ <-].
      cbn [log emit] in Hl1. rewrite <- app_assoc in Hl1.
      destruct l1 as [|x l1].
      * destruct Hh as (l2 & w2 & H2 & ->). cbn [snd].
        destruct (scrapeFailoverStream_fetches env id
            (emit (EWarn ("Primary site failed, trying failover for " +:+ id)) w1))
          as (l2' & evs2 & w2' & H2' & Hl2 & Hn2).
        rewrite H2 in H2'. apply pair_equal_spec in H2' as [_ <-].
        cbn [log emit] in Hl2. rewrite Hl1, <- !app_assoc in Hl2.
        destruct (after_cache_fetches env ("stream:" +:+ id) l2 w2) as (tail & Hl & Ht).
        rewrite Hl2, <- !app_assoc in Hl.
        rewrite (new_events_app _ _ _ Hl), !fetches_app, Ht.
        change (fetches [EGet ("stream:" +:+ id)]) with 0.
        change (fetches [EWarn ("Primary site failed, trying failover for " +:+ id)]) with 0.
        lia.
      * rewrite Hh. cbn [snd].
        destruct (after_cache_fetches env ("stream:" +:+ id) (x :: l1) w1) as (tail & Hl & Ht).
        cbn [after_cache] in Hl. rewrite Hl1, <- !app_assoc in Hl.
        rewrite (new_events_app _ _ _ Hl), !fetches_app, Ht.
        change (fetches [EGet ("stream:" +:+ id)]) with 0. lia.
Qed.

Lemma catalogHandler_fetches env lib type id w :
  fetches (new_events w (snd (catalogHandler env lib type id w))) <= 1.
Proof.
  destruct (redis_fault env (step w)) as [e|] eqn:Hf.
  - rewrite (catalogHandler_fault _ _ _ _ _ _ Hf). cbn [snd].
    trace_events. cbn. lia.
  - destruct (truthy (live w ("catalog:" +:+ type +:+ ":" +:+ id))) eqn:Hhit.
    + rewrite (catalogHandler_hit _ _ _ _ _ Hf Hhit). cbn [snd].
      trace_events. cbn. lia.
    + rewrite (catalogHandler_miss _ _ _ _ _ Hf Hhit). cbv zeta.
      destruct (http env (S (step w)) (catalog_target type));
        [destruct (forallb linked _); [destruct (redis_fault env (S (S (step w))))|]|];
        cbn [snd];
        trace_events;
        unfold fetches; cbn [List.filter is_fetch length]; lia.
Qed.

Lemma metaHandler_fetches env lib id type w :
  fetches (new_events w (snd (metaHandler env lib id type w))) = 0.
Proof.
  destruct (redis_fault env (step w)) as [e|] eqn:Hf.
  - rewrite (metaHandler_fault _ _ _ _ _ _ Hf). cbn [snd].
    now trace_events.
  - destruct (truthy (live w ("meta:" +:+ id))) eqn:Hhit.
    + rewrite (metaHandler_hit _ _ _ _ _ Hf Hhit). cbn [snd].
      now trace_events.
    + rewrite (metaHandler_miss _ _ _ _ _ Hf Hhit). cbv zeta.
      destruct (redis_fault env (S (step w))); cbn [snd];
        trace_events;
        reflexivity.
Qed.

(** X10.  The number of pages a call fetches is bounded whatever the
    network, the pages and the cache do: the primary resolver fetches one
    to three pages, the failover resolver one or two, a stream request at
    most five, a catalog request at most one and a meta request none. *)
Theorem fetch_budget (env : Env) (lib : Lib) (w : World) :
  (forall id, 1 <= fetches (new_events w (snd (scrapeCuevanaStream env id w))) <= 3) /\
  (forall id, 1 <= fetches (new_events w (snd (scrapeFailoverStream env id w))) <= 2) /\
  (forall id, fetches (new_events w (snd (streamHandler env id w))) <= 5) /\
  (forall type id, fetches (new_events w (snd (catalogHandler env lib type id w))) <= 1) /\
  (forall id type, fetches (new_events w (snd (metaHandler env lib id type w))) = 0).
Proof.
  split; [|split; [|split; [|split]]].
  - intros id.
    destruct (scrapeCuevanaStream_fetches env id w) as (l & evs & w' & -> & Hl & Hn).
    cbn [snd]. now rewrite (new_events_app _ _ _ Hl).
  - intros id.
    destruct (scrapeFailoverStream_fetches env id w) as (l & evs & w' & -> & Hl & Hn).
    cbn [snd]. now rewrite (new_events_app _ _ _ Hl).
  - intros id. apply streamHandler_fetches.
  - intros type id. apply catalogHandler_fetches.
  - intros id type. apply metaHandler_fetches.
Qed.

(* ================================================================= *)
(** ** What the two patterns capture *)

Lemma all_in_append cls a b :
  all_in cls (a +:+ b) = all_in cls a && all_in cls b.
Proof.
  induction a as [|c a IH]; simpl; [reflexivity|]. now rewrite IH, andb_assoc.
Qed.

Lemma after_class_split cls s :
  exists mid,
    s = mid +:+ after_class cls s /\ all_in cls mid = true /\
    stops_at cls (after_class cls s).
Proof.
  induction s as [|c s (mid & Hs & Hmid & Hstop)]; simpl.
  - now exists "".
  - destruct (cls c) eqn:Hc.
    + exists (String c mid). simpl. rewrite Hc, Hmid, <- Hs. auto.
    + exists "". simpl. auto.
Qed.

(** A greedy star whose continuation accepts every text takes the longest
    run of characters of its class. *)
Lemma rep_greedy_longest {R : Type} cls (k : string -> option R) s :
  (forall t, k t <> None) ->
  rep_greedy cls k 0 None s = k (after_class cls s).
Proof.
  intros Hk. induction s as [|c s IH]; simpl; [reflexivity|].
  destruct (cls c); [|reflexivity].
  rewrite IH. destruct (k (after_class cls s)) eqn:Hr; [reflexivity|].
  now apply Hk in Hr.
Qed.

Lemma String_match_at p s m :
  String_match p s = Some m ->
  exists pre s' st rest,
    s = pre +:+ s' /\ run p mstate0 s' = Some (st, rest) /\ m = captured st.
Proof.
  induction s as [|c s IH]; simpl; intros H.
  - destruct (run p mstate0 "") as [[st rest]|] eqn:Hr; [|discriminate].
    injection H as <-. exists "", "", st, rest. auto.
  - destruct (run p mstate0 (String c s)) as [[st rest]|] eqn:Hr.
    + injection H as <-. exists "", (String c s), st, rest. auto.
    + destruct (IH H) as (pre & s' & st & rest & -> & Hrun & ->).
      exists (String c pre), s', st, rest. auto.
Qed.

(** The parts of a match of the master pattern. *)
Lemma master_re_shape s st rest :
  run master_re mstate0 s = Some (st, rest) ->
  exists o mid tail,
    captured st = ["http" +:+ o +:+ "://" +:+ mid +:+ ".m3u8" +:+ tail] /\
    s = ("http" +:+ o +:+ "://" +:+ mid +:+ ".m3u8" +:+ tail) +:+ rest /\
    (o = "" \/ o = "s") /\ mid <> "" /\
    all_in cls_not_quote mid = true /\ all_in cls_not_quote tail = true /\
    stops_at cls_not_quote rest.
Proof.
  unfold master_re, mstate0. cbn [lits List.app]. rewrite run_Open. intros H.
  do 4 (apply run_Chr in H as (? & -> & H)).
  apply run_Rep in H as (o & ? & -> & Ho & _ & Hlen & H).
  do 3 (apply run_Chr in H as (? & -> & H)).
  apply run_Rep in H as (mid & ? & -> & Hmid & Hmin & _ & H).
  do 4 (apply run_Chr in H as (? & -> & H)).
  apply run_Chr in H as (after & -> & H).
  unfold star in H. cbn [run] in H.
  rewrite rep_greedy_longest in H by (intros t; cbn [opened]; discriminate).
  cbn [opened captured] in H.
  destruct (after_class_split cls_not_quote after) as (tail & Hx & Htail & Hstop).
  injection H as <- <-. cbn [captured List.app].
  exists o, mid, tail.
  set (s := String "h" _).
  assert (Hs : s = ("http" +:+ o +:+ "://" +:+ mid +:+ ".m3u8" +:+ tail)
                   +:+ after_class cls_not_quote after).
  { subst s. simpl. rewrite !append_assoc. simpl. rewrite !append_assoc. simpl.
    now rewrite <- Hx. }
  clearbody s. subst s. rewrite consumed_append.
  repeat split; auto.
  - destruct o as [|c [|c' o]]; [now left | right | simpl in Hlen; lia].
    cbn [all_in] in Ho. apply andb_prop in Ho as [Hc _].
    now apply Ascii.eqb_eq in Hc as <-.
  - intros ->. simpl in Hmin. lia.
Qed.

(** The groups of a match of the variant pattern. *)
Lemma variant_re_captures s st rest :
  run variant_re mstate0 s = Some (st, rest) ->
  exists q r,
    captured st = [q; r +:+ ".m3u8"] /\
    all_in cls_digit q = true /\ q <> "" /\ all_in cls_dot r = true.
Proof.
  unfold variant_re, mstate0, nl. cbn [lits List.app]. intros H.
  do 18 (apply run_Chr in H as (? & -> & H)).
  apply run_Rep in H as (? & ? & -> & _ & _ & _ & H).
  do 11 (apply run_Chr in H as (? & -> & H)).
  apply run_Rep in H as (? & ? & -> & _ & _ & _ & H).
  apply run_Chr in H as (? & -> & H).
  rewrite run_Open in H.
  apply run_Rep in H as (q & r1 & -> & Hq & Hqlen & _ & H).
  cbn [opened captured] in H. rewrite run_Close, consumed_append in H.
  apply run_Rep in H as (? & ? & -> & _ & _ & _ & H).
  apply run_Chr in H as (? & -> & H).
  rewrite run_Open in H.
  apply run_Rep in H as (r & r3 & -> & Hr & _ & _ & H).
  do 5 (apply run_Chr in H as (? & -> & H)).
  cbn [opened captured] in H. rewrite run_Close, run_nil in H.
  injection H as <- <-. cbn [captured List.app].
  exists q, r.
  match goal with
  | |- context [consumed ?a ?b] =>
      assert (Ha : a = (r +:+ ".m3u8") +:+ b) by (rewrite append_assoc; reflexivity);
      rewrite Ha, consumed_append
  end.
  repeat split; auto. intros ->. simpl in Hqlen. lia.
Qed.

(** Every result of the loop of line 130 is a match of the pattern. *)
Lemma exec_all_run p s : forall skip m,
  In m (exec_all p s skip) ->
  exists s' st rest, run p mstate0 s' = Some (st, rest) /\ m = captured st.
Proof.
  induction s as [|c s IH]; intros skip m H.
  - destruct skip; cbn [exec_all] in H; [|contradiction].
    destruct (run p mstate0 "") as [[st rest]|] eqn:Hr; [|contradiction].
    destruct H as [<-|[]]. eauto.
  - destruct skip as [|k]; cbn [exec_all] in H; [|eauto].
    destruct (run p mstate0 (String c s)) as [[st rest]|] eqn:Hr; [|eauto].
    destruct H as [<-|H]; eauto.
Qed.

Lemma exec_all_variant playlist m :
  In m (exec_all variant_re playlist 0) ->
  exists q r,
    m = [q; r +:+ ".m3u8"] /\
    all_in cls_digit q = true /\ q <> "" /\ all_in cls_dot r = true.
Proof.
  intros H. apply exec_all_run in H as (s' & st & rest & Hrun & ->).
  now apply variant_re_captures in Hrun.
Qed.

Lemma qualities_heights env base playlist qs :
  map_outcome (quality_of env base) (exec_all variant_re playlist 0) = Normal qs ->
  Forall (fun x => height_title (title x)) (map variant_stream qs).
Proof.
  intros H. apply map_outcome_Forall2 in H.
  assert (Hms : Forall (fun m => exists q r,
                          m = [q; r +:+ ".m3u8"] /\
                          all_in cls_digit q = true /\ q <> "" /\ all_in cls_dot r = true)
                       (exec_all variant_re playlist 0))
    by (apply List.Forall_forall; apply exec_all_variant).
  induction H as [|m q ms qs' Hq _ IH]; cbn [map]; constructor.
  - apply quality_of_inv in Hq as [Hq _]. apply Forall_inv in Hms.
    destruct Hms as (h & r & -> & Hh & Hne & _).
    exists h. unfold variant_stream. cbn [title]. rewrite Hq. auto.
  - apply IH. now apply Forall_inv_tail in Hms.
Qed.

(** X11.  The manifest URL both resolvers take from the frame content
    (lines 119 and 177) is a piece of that content: it starts with http, an
    optional s and a colon with two slashes, holds the extension .m3u8
    after at least one character, has no quote in it, and runs up to the
    next quote or to the end of the content. *)
Theorem master_url_is_delimited (content : string) (m : list string) :
  String_match master_re content = Some m ->
  exists pre post o mid tail,
    content = pre +:+ group 1 m +:+ post /\
    group 1 m = "http" +:+ o +:+ "://" +:+ mid +:+ ".m3u8" +:+ tail /\
    (o = "" \/ o = "s") /\ mid <> "" /\
    all_in cls_not_quote mid = true /\ all_in cls_not_quote tail = true /\
    stops_at cls_not_quote post.
Proof.
  intros H. apply String_match_at in H as (pre & s' & st & rest & -> & Hrun & ->).
  apply master_re_shape in Hrun
    as (o & mid & tail & Hcap & -> & Ho & Hmid & Hm & Ht & Hstop).
  rewrite Hcap. exists pre, rest, o, mid, tail. cbn [group pred nth]. auto 10.
Qed.

Lemma master_url_is_delimited_witness :
  exists pre post o mid tail,
    player_page = pre +:+ group 1 [master_url] +:+ post /\
    group 1 [master_url] = "http" +:+ o +:+ "://" +:+ mid +:+ ".m3u8" +:+ tail /\
    (o = "" \/ o = "s") /\ mid <> "" /\
    all_in cls_not_quote mid = true /\ all_in cls_not_quote tail = true /\
    stops_at cls_not_quote post.
Proof.
  exact (master_url_is_delimited player_page [master_url] eq_refl).
Defined.

(** X12.  Every match the loop of lines 130-135 takes from a manifest has
    two groups: the first is one or more digits (the height, the number
    after the x) and the second is a reference that ends with .m3u8 and
    has no line break before that extension. *)
Theorem variant_matches_shape (playlist : string) (m : list string) :
  In m (exec_all variant_re playlist 0) ->
  exists q r,
    m = [q; r +:+ ".m3u8"] /\
    group 1 m = q /\ group 2 m = r +:+ ".m3u8" /\
    q <> "" /\ all_in cls_digit q = true /\ all_in cls_dot r = true.
Proof.
  intros H. apply exec_all_variant in H as (q & r & -> & Hq & Hne & Hr).
  exists q, r. auto 10.
Qed.

Lemma variant_matches_shape_witness :
  exists q r,
    ["360"; "360p.m3u8"] = [q; r +:+ ".m3u8"] /\
    group 1 ["360"; "360p.m3u8"] = q /\ group 2 ["360"; "360p.m3u8"] = r +:+ ".m3u8" /\
    q <> "" /\ all_in cls_digit q = true /\ all_in cls_dot r = true.
Proof.
  apply (variant_matches_shape sample_master_text ["360"; "360p.m3u8"]).
  vm_compute. auto.
Defined.

(** X13.  Whatever the pages hold, the primary resolver returns no
    locator, or the single locator Auto (Master), or locators that are
    each titled with one or more digits followed by p. *)
Theorem primary_titles (env : Env) (id : string) (w : World) :
  exists l w',
    scrapeCuevanaStream env id w = (Normal l, w') /\
    (l = [] \/
     (exists u, l = [MkStream "Auto (Master)" u "Cuevana Stream"]) \/
     (l <> [] /\ Forall (fun x => height_title (title x)) l)).
Proof.
  rewrite scrapeCuevanaStream_unfold.
  primary_stages env w; do 2 eexists; (split; [reflexivity|]); auto.
  - right. left. unfold push_stream. cbn [List.app]. eauto.
  - right. right. cbn [List.app]. split; [discriminate|].
    exact (qualities_heights _ _ _ _ Hqs).
Qed.

(* ================================================================= *)
(** ** The catalog id, and cache failures in the catalog and meta handlers *)

(** X14.  The catalog handler uses the id of the request for the cache key
    only: after reads that miss, two requests for one type return the same
    result whatever their ids. *)
Theorem catalog_id_is_only_a_key (env : Env) (lib : Lib) (type id id' : string)
    (w : World) :
  redis_fault env (step w) = None ->
  truthy (live w ("catalog:" +:+ type +:+ ":" +:+ id)) = false ->
  truthy (live w ("catalog:" +:+ type +:+ ":" +:+ id')) = false ->
  fst (catalogHandler env lib type id w) = fst (catalogHandler env lib type id' w).
Proof.
  intros Hf Hmiss Hmiss'.
  rewrite (catalogHandler_miss _ _ _ _ _ Hf Hmiss), (catalogHandler_miss _ _ _ _ _ Hf Hmiss').
  cbv zeta. destruct (http env (S (step w)) (catalog_target type)); [|reflexivity].
  destruct (forallb linked _); [|reflexivity].
  destruct (redis_fault env (S (S (step w)))); reflexivity.
Qed.

Lemma catalog_id_is_only_a_key_witness :
  fst (catalogHandler env_listing sample_lib "movie" "top-movies" world0) =
  fst (catalogHandler env_listing sample_lib "movie" "recent" world0).
Proof.
  exact (catalog_id_is_only_a_key env_listing sample_lib "movie" "top-movies" "recent"
           world0 eq_refl eq_refl eq_refl).
Defined.

(** X15.  A failed cache write does not cost the catalog request its
    result: when the page was scraped in full and the write of line 50
    fails, the handler still returns the whole listing; the error is
    logged and the store is left as it was. *)
Theorem catalog_write_failure_is_contained (env : Env) (lib : Lib)
    (type id : string) (w : World) (res : string) (e : JsError) :
  redis_fault env (step w) = None ->
  truthy (live w ("catalog:" +:+ type +:+ ":" +:+ id)) = false ->
  http env (S (step w)) (catalog_target type) = Normal res ->
  forallb linked (cheerio_select "article" (cheerio_load env res)) = true ->
  redis_fault env (S (S (step w))) = Some e ->
  let metas := map (preview lib type) (cheerio_select "article" (cheerio_load env res)) in
  exists w',
    catalogHandler env lib type id w = (Normal metas, w') /\
    store w' = store w /\
    new_events w w' =
      [EGet ("catalog:" +:+ type +:+ ":" +:+ id); EFetch (catalog_target type);
       ESet ("catalog:" +:+ type +:+ ":" +:+ id) (stringify (metas_codec lib) metas) 3600;
       EError ("Catalog scrape failed: " +:+ message e)].
Proof.
  intros Hf Hmiss Hpage Hall Hset metas.
  rewrite (catalogHandler_miss _ _ _ _ _ Hf Hmiss). cbv zeta.
  rewrite Hpage, Hall, Hset, (linked_prefix_all _ Hall).
  eexists. split; [reflexivity|]. split; [reflexivity|].
  apply new_events_app. cbn [log emit]. rewrite <- !app_assoc. reflexivity.
Qed.

Lemma catalog_write_failure_is_contained_witness :
  exists w',
    catalogHandler env_listing_write_fails sample_lib "movie" "top-movies" world0
    = (Normal [preview_movie; preview_show], w') /\
    store w' = store world0 /\
    new_events world0 w' =
      [EGet "catalog:movie:top-movies"; EFetch "https://cuevana3.me/";
       ESet "catalog:movie:top-movies"
            (MetaJson.stringify_previews [preview_movie; preview_show]) 3600;
       EError "Catalog scrape failed: Connection is closed."].
Proof.
  exact (catalog_write_failure_is_contained env_listing_write_fails sample_lib
           "movie" "top-movies" world0 listing_page (MkError "Connection is closed.")
           eq_refl eq_refl eq_refl eq_refl eq_refl).
Defined.

(** X16.  The cache read of the catalog handler and of the meta handler
    sits outside any try block: when the read fails the handler throws the
    error of the read, after the read alone; nothing is fetched and
    nothing is written. *)
Theorem cache_read_failure_propagates (env : Env) (lib : Lib) (type id : string)
    (w : World) (e : JsError) :
  redis_fault env (step w) = Some e ->
  catalogHandler env lib type id w =
    (Throw e, emit (EGet ("catalog:" +:+ type +:+ ":" +:+ id)) w) /\
  metaHandler env lib id type w = (Throw e, emit (EGet ("meta:" +:+ id)) w).
Proof.
  intros Hf. split; [now apply catalogHandler_fault | now apply metaHandler_fault].
Qed.

Lemma cache_read_failure_propagates_witness :
  catalogHandler env_store_down sample_lib "movie" "top-movies" world0 =
    (Throw (MkError "Connection is closed."), emit (EGet "catalog:movie:top-movies") world0) /\
  metaHandler env_store_down sample_lib "top-movies" "movie" world0 =
    (Throw (MkError "Connection is closed."), emit (EGet "meta:top-movies") world0).
Proof.
  exact (cache_read_failure_propagates env_store_down sample_lib "movie" "top-movies"
           world0 (MkError "Connection is closed.") eq_refl).
Defined.
